(** * audiovsl: the audio synchronisation engine of [WaveformSync.tsx]

    A shallow embedding of the offset analysis and of the playback
    controller of [src/app/components/WaveformSync.tsx], together with the
    keyboard shortcut of [src/app/page.tsx] that nudges the offset, the
    preview box and the export history of the same page, the text overlays
    of [src/app/components/TextPreview.tsx] and [formatTime] of
    [src/lib/utils.ts].

    Numbers.  A finite JavaScript number is modelled by an exact rational
    [Q], and numeric equality ([===], the [SameValueZero] of [Set] and
    [includes]) by [Qeq]: the rounding of IEEE doubles and the sign of zero
    are not modelled.  Where the code divides by a quantity that can be
    zero, the extended numbers [JS.num] carry the infinities and [NaN]. *)

From Stdlib Require Import QArith Qround Qabs Lia Lqa List String ZArith Bool.
From Stdlib Require Import Permutation Sorted SetoidList SetoidPermutation.
From Stdlib Require DecimalString.
From Equations Require Import Equations.
Import ListNotations.
Open Scope Q_scope.

(** ** The JavaScript operations the component uses *)

Module JS.

Definition ltb (a b : Q) : bool := negb (Qle_bool b a).

(** [Math.max(a, b)] and [Math.min(a, b)] on finite numbers. *)
Definition max (a b : Q) : Q := if Qle_bool a b then b else a.
Definition min (a b : Q) : Q := if Qle_bool a b then a else b.

(** [parseFloat(x.toFixed(d))] with [scale = 10^d]: [toFixed] takes the
    integer [n] for which [n / 10^d] is nearest to the magnitude of [x],
    the larger one on a tie, and restores the sign. *)
Definition toFixed (scale : Z) (x : Q) : Q :=
  let n := Qfloor (Qabs x * inject_Z scale + (1 # 2)) in
  if Qle_bool 0 x then inject_Z n / inject_Z scale
  else - (inject_Z n / inject_Z scale).

(** Numbers with the two infinities and [NaN]. *)
Inductive num : Type :=
| Num (q : Q)
| PosInf
| NegInf
| NaN.

Definition inf (positive : bool) : num :=
  if positive then PosInf else NegInf.

Definition numAdd (a b : num) : num :=
  match a, b with
  | NaN, _ | _, NaN => NaN
  | Num x, Num y => Num (x + y)
  | PosInf, NegInf | NegInf, PosInf => NaN
  | PosInf, _ | _, PosInf => PosInf
  | NegInf, _ | _, NegInf => NegInf
  end.

Definition numMul (a b : num) : num :=
  match a, b with
  | NaN, _ | _, NaN => NaN
  | Num x, Num y => Num (x * y)
  | Num x, PosInf | PosInf, Num x =>
      if Qeq_bool x 0 then NaN else inf (ltb 0 x)
  | Num x, NegInf | NegInf, Num x =>
      if Qeq_bool x 0 then NaN else inf (ltb x 0)
  | PosInf, PosInf | NegInf, NegInf => PosInf
  | PosInf, NegInf | NegInf, PosInf => NegInf
  end.

Definition numDiv (a b : num) : num :=
  match a, b with
  | NaN, _ | _, NaN => NaN
  | Num x, Num y =>
      if Qeq_bool y 0
      then (if Qeq_bool x 0 then NaN else inf (ltb 0 x))
      else Num (x / y)
  | Num _, _ => Num 0
  | PosInf, Num y => inf (Qle_bool 0 y)
  | NegInf, Num y => inf (ltb y 0)
  | _, _ => NaN
  end.

Definition numMax (a b : num) : num :=
  match a, b with
  | NaN, _ | _, NaN => NaN
  | PosInf, _ | _, PosInf => PosInf
  | NegInf, c | c, NegInf => c
  | Num x, Num y => Num (max x y)
  end.

Definition numMin (a b : num) : num :=
  match a, b with
  | NaN, _ | _, NaN => NaN
  | NegInf, _ | _, NegInf => NegInf
  | PosInf, c | c, PosInf => c
  | Num x, Num y => Num (min x y)
  end.

(** [Math.max(...args)]: the maximum of no argument is [-Infinity]. *)
Definition maxOf (args : list num) : num := fold_left numMax args NegInf.

(** [toFixed] prints [Infinity] and [NaN] by name and [parseFloat] reads
    them back. *)
Definition numToFixed (scale : Z) (a : num) : num :=
  match a with
  | Num x => Num (toFixed scale x)
  | other => other
  end.

(** [arr.includes(x)]. *)
Definition includes (x : Q) (arr : list Q) : bool :=
  existsb (Qeq_bool x) arr.

(** [new Set(arr)]: a [Set] keeps its elements in insertion order and
    [add] ignores a value it already holds; [Array.from] lists them. *)
Definition setAdd (s : list Q) (x : Q) : list Q :=
  if includes x s then s else s ++ [x].

Definition newSet (arr : list Q) : list Q := fold_left setAdd arr [].

(** [arr.sort(cmp)]: the sort is stable and [cmp a b <= 0] keeps [a]
    before [b].  For a comparator that is a total preorder every stable
    sort returns this list. *)
Section Sort.
Context {A : Type} (cmp : A -> A -> Q).

Fixpoint insert (x : A) (l : list A) : list A :=
  match l with
  | [] => [x]
  | y :: l' =>
      if Qle_bool (cmp x y) 0 then x :: y :: l' else y :: insert x l'
  end.

Fixpoint sort (l : list A) : list A :=
  match l with
  | [] => []
  | x :: l' => insert x (sort l')
  end.
End Sort.

End JS.

Import JS.

(** ** Results of the correlation methods *)

(** What [findCorrelation], [compareMFCCs] and [matchOnsets] return. *)
Record Result : Type := mkResult
  { offset : Q; correlation : Q }.

(** [{...r, method: m}] of [findEnhancedCorrelation]. *)
Record Candidate : Type := mkCandidate
  { base : Result; method : string }.

(** [{...result, weightedScore}] of [analyzeSyncPoints]. *)
Record Weighted : Type := mkWeighted
  { result : Candidate; weightedScore : num }.

(** ** Visualisation waveform ([analyzeAudioData], the decoded samples in
    [rawData]) *)

Definition samples : nat := 150.

Definition blockSize (rawData : list Q) : nat :=
  (length rawData / samples)%nat.

(** The inner loop: [sum += Math.abs(rawData[blockStart + j] || 0)]. *)
Definition blockSum (rawData : list Q) (blockStart size : nat) : Q :=
  fold_left (fun sum j => sum + Qabs (nth (blockStart + j) rawData 0))
            (seq 0 size) 0.

Definition filteredData (rawData : list Q) : list num :=
  let size := blockSize rawData in
  map (fun i =>
         numDiv (Num (blockSum rawData (size * i) size))
                (Num (inject_Z (Z.of_nat size))))
      (seq 0 samples).

(** [Math.max(...filteredData, 0.01)]. *)
Definition maxValue (rawData : list Q) : num :=
  maxOf (filteredData rawData ++ [Num 0.01]).

Definition normalizedData (rawData : list Q) : list num :=
  map (fun n => numDiv n (maxValue rawData)) (filteredData rawData).

(** ** Decoding with retries ([analyzeAudioData]) *)


Section AnalyzeAudioData.

(** The feature set of [extractAudioFeatures], which calls the Meyda
    library; [None] stands for the call that threw, after which
    [features] stays [{}]. *)
Variable Features : Type.
Variable extractAudioFeatures : list Q -> option Features.

(** [Math.sin]. *)
Variable sin : Q -> Q.

(** The network and the decoder: the first channel that fetching and
    decoding [url] gives on the attempt made after [retryCount] failures,
    [None] when the response is not ok, the buffer is empty or
    [decodeAudioData] rejects. *)
Variable fetchAndDecode : string -> nat -> option (list Q).

Record Analysis : Type := mkAnalysis
  { rawData : list Q; waveform : list num; features : option Features }.

(** The body of the [try] block: [None] when it throws. *)
Definition tryAnalysis (url : string) (retryCount : nat) : option Analysis :=
  match fetchAndDecode url retryCount with
  | None => None
  | Some [] => None
  | Some channel =>
      Some (mkAnalysis channel (normalizedData channel)
                       (extractAudioFeatures channel))
  end.






End AnalyzeAudioData.

(** ** Basic correlation ([findCorrelation]) *)

Definition sampleRate : Z := 44100.
Definition maxSamples : Z := 44100 * 10.
Definition maxOffsetSeconds : Z := 5.
Definition maxOffsetSamples : Z := maxOffsetSeconds * sampleRate.
Definition stepSize : Z := Qfloor (inject_Z sampleRate * 0.1).

(** [signal.slice(0, Math.min(signal.length, maxSamples))]. *)
Definition window (signal : list Q) : list Q :=
  firstn (Z.to_nat (Z.min (Z.of_nat (length signal)) maxSamples)) signal.

(** The values [offsetSamples] takes in
    [for (o = -maxOffsetSamples; o <= maxOffsetSamples; o += stepSize)]. *)
Definition scannedOffsets : list Z :=
  map (fun k => - maxOffsetSamples + Z.of_nat k * stepSize)%Z
      (seq 0 (Z.to_nat (2 * maxOffsetSamples / stepSize) + 1)).

(** The inner loop over [i], entered at index [i] with the samples of [s1]
    from [i] on; [length2] is [s2.length] and the state is the pair of
    [correlation] and [count]. *)
Fixpoint correlateFrom (i : Z) (s1 s2 : list Q) (length2 offsetSamples : Z)
         (state : Q * Z) : Q * Z :=
  match s1 with
  | [] => state
  | x :: s1' =>
      let j := (i + offsetSamples)%Z in
      correlateFrom (i + 1) s1' s2 length2 offsetSamples
        (if (0 <=? j)%Z && (j <? length2)%Z
         then (fst state + x * nth (Z.to_nat j) s2 0, (snd state + 1)%Z)
         else state)
  end.

Definition correlateAt (s1 s2 : list Q) (offsetSamples : Z) : Q * Z :=
  correlateFrom 0 s1 s2 (Z.of_nat (length s2)) offsetSamples (0, 0%Z).

(** What the body of the outer loop pushes for one value of
    [offsetSamples]. *)
Definition entryAt (s1 s2 : list Q) (offsetSamples : Z) : Result :=
  let (sum, count) := correlateAt s1 s2 offsetSamples in
  let correlation := if (0 <? count)%Z then sum / inject_Z count else 0 in
  let offsetSeconds := inject_Z offsetSamples / inject_Z sampleRate in
  mkResult (toFixed 100 offsetSeconds) correlation.

Definition findCorrelation (signal1 signal2 : list Q) : list Result :=
  map (entryAt (window signal1) (window signal2)) scannedOffsets.

(** ** Onset pattern matching ([matchOnsets]) *)

Definition maxOffset : Q := 5.

(** The two intervals of the onset triple that starts at index [i]. *)
Definition pattern (onsets : list Q) (i : nat) : Q * Q :=
  (nth (i + 1) onsets 0 - nth i onsets 0,
   nth (i + 2) onsets 0 - nth (i + 1) onsets 0).

Definition patternSimilarity (vPattern aPattern : Q * Q) : Q :=
  if ltb (Qabs (fst vPattern - fst aPattern)) 0.1
     && ltb (Qabs (snd vPattern - snd aPattern)) 0.1
  then 1 else 0.

(** What the body of the two nested loops pushes for the pair [(i, j)]. *)
Definition matchAt (videoOnsets audioOnsets : list Q) (i j : nat)
  : list Result :=
  let similarity :=
    patternSimilarity (pattern videoOnsets i) (pattern audioOnsets j) in
  if ltb 0 similarity then
    let offset := nth i videoOnsets 0 - nth j audioOnsets 0 in
    if Qle_bool (Qabs offset) maxOffset
    then [mkResult (toFixed 100 offset) (0.7 + 0.3 * similarity)]
    else []
  else [].

Definition patternMatches (videoOnsets audioOnsets : list Q) : list Result :=
  flat_map (fun i =>
              flat_map (matchAt videoOnsets audioOnsets i)
                       (seq 0 (length audioOnsets - 2)))
           (seq 0 (length videoOnsets - 2)).

Definition firstOnsetAlignment (videoOnsets audioOnsets : list Q)
  : list Result :=
  let offset := nth 0 videoOnsets 0 - nth 0 audioOnsets 0 in
  if Qle_bool (Qabs offset) maxOffset
  then [mkResult (toFixed 100 offset) 0.5]
  else [].

Definition matchOnsets (videoOnsets audioOnsets : list Q) : list Result :=
  if (length videoOnsets =? 0)%nat || (length audioOnsets =? 0)%nat then []
  else
    let results := patternMatches videoOnsets audioOnsets in
    if (length results =? 0)%nat
       && (0 <? length videoOnsets)%nat && (0 <? length audioOnsets)%nat
    then results ++ firstOnsetAlignment videoOnsets audioOnsets
    else results.

(** ** The suggestion aggregator ([analyzeSyncPoints], from the list
    [enhancedResults] on) *)

Definition methodWeights : list (string * Q) :=
  [ ("mfcc"%string, 0.5); ("onset"%string, 0.3);
    ("basic-correlation"%string, 0.2) ].

Fixpoint lookupWeight (m : string) (table : list (string * Q)) : option Q :=
  match table with
  | [] => None
  | (key, w) :: table' =>
      if String.eqb key m then Some w else lookupWeight m table'
  end.

(** The property names that the object literal [methodWeights] inherits
    from [Object.prototype]. *)
Definition inheritedNames : list string :=
  [ "constructor"%string; "hasOwnProperty"%string; "isPrototypeOf"%string;
    "propertyIsEnumerable"%string; "toLocaleString"%string;
    "toString"%string; "valueOf"%string; "__proto__"%string;
    "__defineGetter__"%string; "__defineSetter__"%string;
    "__lookupGetter__"%string; "__lookupSetter__"%string ].

Definition inherited (m : string) : bool :=
  existsb (String.eqb m) inheritedNames.

(** [methodWeights[result.method] || 0.1] as the factor of the product: a
    missing or zero entry is falsy and gives 0.1; for an inherited name the
    lookup gives a function (for [__proto__] the prototype itself), which
    is truthy and, as a number, [NaN]. *)
Definition weightOf (m : string) : num :=
  match lookupWeight m methodWeights with
  | Some w => if Qeq_bool w 0 then Num 0.1 else Num w
  | None => if inherited m then NaN else Num 0.1
  end.

Definition weightedResults (enhancedResults : list Candidate) : list Weighted :=
  map (fun r =>
         mkWeighted r (numMul (Num (correlation (base r)))
                              (weightOf (method r))))
      enhancedResults.

(** [b.weightedScore - a.weightedScore] as [sort] reads it: [sort] takes
    [NaN] for 0, and of an infinite value only the sign counts. *)
Definition byScoreDesc (a b : Weighted) : Q :=
  match weightedScore b, weightedScore a with
  | Num y, Num x => y - x
  | NaN, _ | _, NaN => 0
  | PosInf, PosInf | NegInf, NegInf => 0
  | PosInf, _ | _, NegInf => 1
  | NegInf, _ | _, PosInf => -1
  end.

(** [weightedResults.sort(...)].  With a score that is [NaN] the comparator
    is not consistent and ECMAScript leaves the order to the engine; the
    order given here is then one of those it allows. *)
Definition sortedResults (enhancedResults : list Candidate) : list Weighted :=
  sort byScoreDesc (weightedResults enhancedResults).

(** [sortedResults.slice(0, 3).map(result => result.offset)]. *)
Definition topSuggestions (enhancedResults : list Candidate) : list Q :=
  map (fun w => offset (base (result w)))
      (firstn 3 (sortedResults enhancedResults)).

(** The two variations of the best match, pushed when there is one. *)
Definition addVariance (suggestions : list Q) : list Q :=
  match suggestions with
  | [] => suggestions
  | bestMatch :: _ => suggestions ++ [bestMatch + 0.05; bestMatch - 0.05]
  end.

Definition addZero (suggestions : list Q) : list Q :=
  if includes 0 suggestions then suggestions else suggestions ++ [0].

Definition inRange (o : Q) : bool := Qle_bool (-5) o && Qle_bool o 5.

Definition byAbs (a b : Q) : Q := Qabs a - Qabs b.

Definition uniqueSuggestions (enhancedResults : list Candidate) : list Q :=
  sort byAbs
    (filter inRange
       (newSet (addZero (addVariance (topSuggestions enhancedResults))))).

(** Rounding to one decimal, [parseFloat(x.toFixed(1))], as
    [applySuggestion] and [handleMouseMove] do it. *)
Definition roundTenth (x : Q) : Q := toFixed 10 x.

(** ** Manual adjustment of the offset *)

(** [handleMouseMove]: the value handed to [onOffsetChange], [None] when
    the handler returns early.  [containerWidth] is [None] while
    [containerRef.current] is null. *)
Definition handleMouseMove (isDragging : bool) (containerWidth : option Q)
           (clientX dragStartX dragStartOffset : Q) : option num :=
  match containerWidth with
  | None => None
  | Some width =>
      if negb isDragging then None
      else
        let deltaX := clientX - dragStartX in
        let deltaSeconds := numMul (numDiv (Num deltaX) (Num width)) (Num 10) in
        let newOffset :=
          numMax (Num (-5))
                 (numMin (Num 5) (numAdd (Num dragStartOffset) deltaSeconds)) in
        Some (numToFixed 10 newOffset)
  end.

(** [applySuggestion]: the value handed to [onOffsetChange]. *)
Definition applySuggestion (o : Q) : Q := toFixed 10 o.

(** [SyncOptions] of [TextPreview.tsx]; [offset] is optional. *)
Record SyncOptions : Type := mkSyncOptions
  { mode : string; syncOffset : option Q }.

Record KeyboardEvent : Type := mkKeyboardEvent
  { code : string; shiftKey : bool; ctrlKey : bool; targetIsInput : bool }.

(** [syncOptions.offset || 0]. *)
Definition offsetOrZero (syncOptions : SyncOptions) : Q :=
  match syncOffset syncOptions with
  | Some o => o
  | None => 0
  end.

(** [handleKeyDown] of [page.tsx], as far as [syncOptions] goes: the other
    shortcuts (Space, Ctrl+Enter, Escape) leave it alone. *)
Definition handleKeyDown (e : KeyboardEvent) (syncOptions : SyncOptions)
  : SyncOptions :=
  if targetIsInput e then syncOptions
  else
    let afterLeft :=
      if String.eqb (code e) "ArrowLeft" && shiftKey e
      then mkSyncOptions (mode syncOptions)
                         (Some (offsetOrZero syncOptions - 0.1))
      else syncOptions in
    if String.eqb (code e) "ArrowRight" && shiftKey e
    then mkSyncOptions (mode syncOptions) (Some (offsetOrZero syncOptions + 0.1))
    else afterLeft.

(** ** The playback controller ([togglePlayback] and the effect on
    [offsetSeconds]) *)

Inductive PlaybackMode : Type := both | video | audio.

Definition modeEqb (a b : PlaybackMode) : bool :=
  match a, b with
  | both, both | video, video | audio, audio => true
  | _, _ => false
  end.

(** The part of an [HTMLAudioElement] the controller touches. *)
Record AudioElement : Type := mkAudioElement
  { paused : bool; currentTime : Q }.

Definition play (el : AudioElement) : AudioElement :=
  mkAudioElement false (currentTime el).

Definition pause (el : AudioElement) : AudioElement :=
  mkAudioElement true (currentTime el).

Definition rewind (el : AudioElement) : AudioElement :=
  mkAudioElement (paused el) 0.

Inductive Source : Type := videoAudio | uploadedAudio.

(** A pending [setTimeout]: its delay in milliseconds and the source whose
    [play()] its callback calls.  The code keeps no handle on it. *)
Record Timeout : Type := mkTimeout
  { delay : Q; starts : Source }.

Record Player : Type := mkPlayer
  { videoAudioRef : option AudioElement;
    uploadedAudioRef : option AudioElement;
    isPlaying : bool;
    playbackMode : PlaybackMode;
    playbackProgress : Q;
    offsetSeconds : Q;
    timeouts : list Timeout }.

Definition onVideo (f : AudioElement -> AudioElement) (p : Player) : Player :=
  mkPlayer (option_map f (videoAudioRef p)) (uploadedAudioRef p) (isPlaying p)
           (playbackMode p) (playbackProgress p) (offsetSeconds p) (timeouts p).

Definition onAudio (f : AudioElement -> AudioElement) (p : Player) : Player :=
  mkPlayer (videoAudioRef p) (option_map f (uploadedAudioRef p)) (isPlaying p)
           (playbackMode p) (playbackProgress p) (offsetSeconds p) (timeouts p).

Definition setIsPlaying (b : bool) (p : Player) : Player :=
  mkPlayer (videoAudioRef p) (uploadedAudioRef p) b
           (playbackMode p) (playbackProgress p) (offsetSeconds p) (timeouts p).

Definition setPlaybackMode (m : PlaybackMode) (p : Player) : Player :=
  mkPlayer (videoAudioRef p) (uploadedAudioRef p) (isPlaying p)
           m (playbackProgress p) (offsetSeconds p) (timeouts p).

Definition setPlaybackProgress (x : Q) (p : Player) : Player :=
  mkPlayer (videoAudioRef p) (uploadedAudioRef p) (isPlaying p)
           (playbackMode p) x (offsetSeconds p) (timeouts p).

Definition setOffsetSeconds (x : Q) (p : Player) : Player :=
  mkPlayer (videoAudioRef p) (uploadedAudioRef p) (isPlaying p)
           (playbackMode p) (playbackProgress p) x (timeouts p).

Definition setTimeout (t : Timeout) (p : Player) : Player :=
  mkPlayer (videoAudioRef p) (uploadedAudioRef p) (isPlaying p)
           (playbackMode p) (playbackProgress p) (offsetSeconds p)
           (timeouts p ++ [t]).

Definition isSome {A : Type} (o : option A) : bool :=
  match o with Some _ => true | None => false end.

(** The branch that stops playback, the same statements in
    [togglePlayback] and in the effect on [offsetSeconds]. *)
Definition stopPlayback (p : Player) : Player :=
  setPlaybackProgress 0 (setIsPlaying false (onAudio pause (onVideo pause p))).

(** The [uploadedAudioRef] part of starting playback. *)
Definition startUploadedAudio (m : PlaybackMode) (p : Player) : Player :=
  if isSome (uploadedAudioRef p) then
    if ltb 0 (offsetSeconds p)
    then setTimeout (mkTimeout (offsetSeconds p * 1000) uploadedAudio) p
    else
      let p1 := onAudio play p in
      if modeEqb m both && isSome (videoAudioRef p1)
      then setTimeout (mkTimeout (Qabs (offsetSeconds p1) * 1000) videoAudio) p1
      else p1
  else p.

Definition togglePlayback (m : PlaybackMode) (p : Player) : Player :=
  if isPlaying p && modeEqb (playbackMode p) m then stopPlayback p
  else
    let p1 := setPlaybackMode m p in
    let p2 := onAudio pause (onAudio rewind (onVideo pause (onVideo rewind p1))) in
    let p3 := if modeEqb m both || modeEqb m video then onVideo play p2 else p2 in
    let p4 := if modeEqb m both || modeEqb m audio
              then startUploadedAudio m p3 else p3 in
    setPlaybackProgress 0 (setIsPlaying true p4).

(** The parent hands down a new [offsetSeconds]; when the value changed the
    effect [useEffect(..., [offsetSeconds])] runs after the render. *)
Definition changeOffset (newOffset : Q) (p : Player) : Player :=
  let p1 := setOffsetSeconds newOffset p in
  if Qeq_bool newOffset (offsetSeconds p) then p1
  else if isPlaying p1 then stopPlayback p1 else p1.

(** The callback of a pending timeout runs: it calls [play()] on its source
    when the ref is still set. *)
Definition runTimeout (t : Timeout) (p : Player) : Player :=
  match starts t with
  | videoAudio => onVideo play p
  | uploadedAudio => onAudio play p
  end.

(** The [n]-th pending timeout fires. *)
Definition fire (n : nat) (p : Player) : Player :=
  match nth_error (timeouts p) n with
  | None => p
  | Some t =>
      runTimeout t
        (mkPlayer (videoAudioRef p) (uploadedAudioRef p) (isPlaying p)
                  (playbackMode p) (playbackProgress p) (offsetSeconds p)
                  (firstn n (timeouts p) ++ skipn (S n) (timeouts p)))
  end.

(** ** The end of [analyzeSyncPoints] *)

(** What [analyzeSyncPoints] leaves behind once the suggestions are known:
    the state [syncSuggestions] and [selectedSuggestion], and the values
    handed to [onOffsetChange]. *)
Record SyncOutcome : Type := mkSyncOutcome
  { syncSuggestions : list Q;
    selectedSuggestion : option Q;
    offsetChanges : list Q }.

Definition finishAnalysis (enhancedResults : list Candidate) : SyncOutcome :=
  let suggestions := uniqueSuggestions enhancedResults in
  match suggestions with
  | [] => mkSyncOutcome suggestions None []
  | first :: _ => mkSyncOutcome suggestions (Some first) [first]
  end.

(** ** Array slices *)

(** [Math.trunc], which [slice] applies to its bounds. *)
Definition trunc (x : Q) : Z :=
  if Qle_bool 0 x then Qfloor x else Qceiling x.

(** [arr.slice(start, end)] for integer bounds: a negative bound counts
    from the end, and both are clipped to the array. *)
Definition slice {A : Type} (arr : list A) (start finish : Z) : list A :=
  let len := Z.of_nat (length arr) in
  let from :=
    if (start <? 0)%Z then Z.max (len + start) 0 else Z.min start len in
  let to :=
    if (finish <? 0)%Z then Z.max (len + finish) 0 else Z.min finish len in
  firstn (Z.to_nat (to - from)) (skipn (Z.to_nat from) arr).

(** ** Feature extraction ([extractAudioFeatures]) *)

(** What [Meyda.extract] gives for one frame. *)
Module Meyda.

(** The three features asked for; [None] stands for a field that is
    missing or not a number. *)
Record Features : Type := mkFeatures
  { spectralCentroid : option Q; rms : option Q; mfcc : option (list Q) }.

Inductive Outcome : Type :=
| Threw
| Null
| Extracted (features : Features).

End Meyda.

(** The object that [extractAudioFeatures] returns. *)
Record FeatureSet : Type := mkFeatureSet
  { spectralCentroids : list Q;
    rms : list Q;
    onsets : list Q;
    mfccs : list (list Q) }.

Definition frameSize : Z := 2048.
Definition hopSize : Z := 4096.
Definition maxDuration : Z := 30.

(** [x || 0] for a number that may be missing. *)
Definition orZero (x : option Q) : Q :=
  match x with
  | Some q => q
  | None => 0
  end.

(** [audioData.slice(0, maxSamples)] with
    [maxSamples = Math.min(audioData.length, sampleRate * maxDuration)]. *)
Definition processData (audioData : list Q) (sampleRate : Q) : list Q :=
  slice audioData 0
        (trunc (min (inject_Z (Z.of_nat (length audioData)))
                    (sampleRate * inject_Z maxDuration))).

(** [Math.floor((processData.length - frameSize) / hopSize) + 1]. *)
Definition numFrames (data : list Q) : Z :=
  ((Z.of_nat (length data) - frameSize) / hopSize + 1)%Z.

(** [processData.slice(startIndex, startIndex + frameSize)] for frame [i]. *)
Definition frameAt (data : list Q) (i : nat) : list Q :=
  let startIndex := (Z.of_nat i * hopSize)%Z in
  slice data startIndex (startIndex + frameSize).

Section ExtractAudioFeatures.

(** [Meyda.extract(["spectralCentroid", "rms", "mfcc"], frame)]. *)
Variable meydaExtract : list Q -> Meyda.Outcome.

(** The body of the loop over the frames; the state is the four arrays and
    [lastRMS]. *)
Definition extractFrame (data : list Q) (sampleRate : Q)
           (state : FeatureSet * Q) (i : nat) : FeatureSet * Q :=
  let (arrays, lastRMS) := state in
  let startIndex := (Z.of_nat i * hopSize)%Z in
  match meydaExtract (frameAt data i) with
  | Meyda.Threw => state
  | Meyda.Null => state
  | Meyda.Extracted features =>
      let currentRMS := orZero (Meyda.rms features) in
      let onsets' :=
        if (0 <? i)%nat && ltb 0.1 currentRMS
           && ltb (1.5 * lastRMS) currentRMS
        then onsets arrays ++ [inject_Z startIndex / sampleRate]
        else onsets arrays in
      let mfccs' :=
        match Meyda.mfcc features with
        | Some coefficients =>
            if (i mod 3 =? 0)%nat then mfccs arrays ++ [coefficients]
            else mfccs arrays
        | None => mfccs arrays
        end in
      (mkFeatureSet
         (spectralCentroids arrays
            ++ [orZero (Meyda.spectralCentroid features)])
         (rms arrays ++ [currentRMS])
         onsets' mfccs',
       currentRMS)
  end.

Definition extractAudioFeatures (audioData : list Q) (sampleRate : Q)
  : FeatureSet :=
  let data := processData audioData sampleRate in
  fst (fold_left (extractFrame data sampleRate)
                 (seq 0 (Z.to_nat (numFrames data)))
                 (mkFeatureSet [] [] [] [], 0)).

End ExtractAudioFeatures.

(** ** MFCC correlation ([compareMFCCs], [cosineSimilarity]) *)

Definition maxOffsetFrames : Z := 500.

Section CompareMFCCs.

(** [Math.sqrt]. *)
Variable sqrt : Q -> Q.

(** The loop of [cosineSimilarity] over the indices of [a]; the state is
    [dotProduct], [normA] and [normB]. *)
Definition cosineStep (a b : list Q) (state : Q * Q * Q) (i : nat)
  : Q * Q * Q :=
  let '(dotProduct, normA, normB) := state in
  (dotProduct + nth i a 0 * nth i b 0,
   normA + nth i a 0 * nth i a 0,
   normB + nth i b 0 * nth i b 0).

Definition cosineSimilarity (a b : list Q) : Q :=
  if negb (length a =? length b)%nat then 0
  else
    let '(dotProduct, normA, normB) :=
      fold_left (cosineStep a b) (seq 0 (length a)) (0, 0, 0) in
    let normA := sqrt normA in
    let normB := sqrt normB in
    if negb (Qeq_bool normA 0) && negb (Qeq_bool normB 0)
    then dotProduct / (normA * normB)
    else 0.

(** The inner loop over [i], entered at index [i] with the frames of
    [vMFCCs] from [i] on; the state is [similarity] and [count]. *)
Fixpoint similarityFrom (i : Z) (vMFCCs aMFCCs : list (list Q))
         (length2 offsetFrames : Z) (state : Q * Z) : Q * Z :=
  match vMFCCs with
  | [] => state
  | v :: vMFCCs' =>
      let j := (i + offsetFrames)%Z in
      similarityFrom (i + 1) vMFCCs' aMFCCs length2 offsetFrames
        (if (0 <=? j)%Z && (j <? length2)%Z
         then (fst state + cosineSimilarity v (nth (Z.to_nat j) aMFCCs []),
               (snd state + 1)%Z)
         else state)
  end.

(** The values [offset] takes in
    [for (offset = -maxOffsetFrames; offset <= maxOffsetFrames; offset += 10)]. *)
Definition scannedFrameOffsets : list Z :=
  map (fun k => - maxOffsetFrames + Z.of_nat k * 10)%Z
      (seq 0 (Z.to_nat (2 * maxOffsetFrames / 10) + 1)).

(** What the body of the outer loop pushes for one value of [offset]. *)
Definition mfccEntryAt (vMFCCs aMFCCs : list (list Q)) (offsetFrames : Z)
  : Result :=
  let (similarity, count) :=
    similarityFrom 0 vMFCCs aMFCCs (Z.of_nat (length aMFCCs)) offsetFrames
                   (0, 0%Z) in
  let normalizedSimilarity :=
    if (0 <? count)%Z then similarity / inject_Z count else 0 in
  let offsetSeconds := inject_Z offsetFrames * 0.01 in
  mkResult (toFixed 100 offsetSeconds) normalizedSimilarity.

Definition compareMFCCs (videoMFCCs audioMFCCs : list (list Q)) : list Result :=
  let vMFCCs := slice videoMFCCs 0 1000 in
  let aMFCCs := slice audioMFCCs 0 1000 in
  map (mfccEntryAt vMFCCs aMFCCs) scannedFrameOffsets.

(** ** All candidates ([findEnhancedCorrelation]) *)

(** [{...r, method: m}]. *)
Definition tagged (m : string) (r : Result) : Candidate := mkCandidate r m.

(** An array of the features that is there and not empty; the features
    are [{}], here [None], after a failed extraction. *)
Definition present {A : Type} (features : option FeatureSet)
           (field : FeatureSet -> list A) : bool :=
  match features with
  | Some f => (0 <? length (field f))%nat
  | None => false
  end.

Definition fieldOf {A : Type} (features : option FeatureSet)
           (field : FeatureSet -> list A) : list A :=
  match features with
  | Some f => field f
  | None => []
  end.

Definition findEnhancedCorrelation (videoFeatures audioFeatures : option FeatureSet)
           (videoData audioData : list Q) : list Candidate :=
  let basicCorrelation := findCorrelation videoData audioData in
  let results := map (tagged "basic-correlation") basicCorrelation in
  let results :=
    if present videoFeatures mfccs && present audioFeatures mfccs
    then results
         ++ map (tagged "mfcc")
                (compareMFCCs (fieldOf videoFeatures mfccs)
                              (fieldOf audioFeatures mfccs))
    else results in
  if present videoFeatures onsets && present audioFeatures onsets
  then results
       ++ map (tagged "onset")
              (matchOnsets (fieldOf videoFeatures onsets)
                           (fieldOf audioFeatures onsets))
  else results.

(** [analyzeSyncPoints] from the two analysed tracks on. *)
Definition suggestFor (videoData audioData : Analysis FeatureSet)
  : SyncOutcome :=
  finishAnalysis
    (findEnhancedCorrelation (features _ videoData) (features _ audioData)
                             (rawData _ videoData) (rawData _ audioData)).

End CompareMFCCs.

(** ** Progress tracking ([updateProgress], [isPlaybackEnded]) *)

(** What an audio element reports besides the fields of [AudioElement]:
    [duration] and [ended]. *)
Record Media : Type := mkMedia
  { duration : num; ended : bool }.

(** [el.duration || 1]: the duration is 1 when it is 0 or not a number;
    [None] stands for an infinite duration. *)
Definition durationOrOne (d : num) : option Q :=
  match d with
  | Num q => if Qeq_bool q 0 then Some 1 else Some q
  | NaN => Some 1
  | PosInf => None
  | NegInf => None
  end.

(** [currentTime / totalDuration]; a finite time over an infinite duration
    is 0. *)
Definition elapsedShare (currentTime : Q) (totalDuration : option Q) : Q :=
  match totalDuration with
  | Some d => currentTime / d
  | None => 0
  end.

(** [currentTime] and [totalDuration] of the track that [updateProgress]
    follows. *)
Definition followed (p : Player) (videoMedia audioMedia : Media)
  : Q * option Q :=
  match playbackMode p, videoAudioRef p, uploadedAudioRef p with
  | video, Some v, _ =>
      (currentTime v, durationOrOne (duration videoMedia))
  | audio, _, Some a =>
      (currentTime a, durationOrOne (duration audioMedia))
  | both, v, a =>
      match Qle_bool 0 (offsetSeconds p), v, a with
      | true, Some v, _ =>
          (currentTime v, durationOrOne (duration videoMedia))
      | false, _, Some a =>
          (currentTime a, durationOrOne (duration audioMedia))
      | _, _, _ => (0, Some 1)
      end
  | _, _, _ => (0, Some 1)
  end.

(** [isPlaybackEnded]: [ref.current?.ended] of a ref that is null is not
    true. *)
Definition isPlaybackEnded (p : Player) (videoMedia audioMedia : Media)
  : bool :=
  let videoEnded := isSome (videoAudioRef p) && ended videoMedia in
  let audioEnded := isSome (uploadedAudioRef p) && ended audioMedia in
  match playbackMode p with
  | video => videoEnded
  | audio => audioEnded
  | both => if Qle_bool 0 (offsetSeconds p) then videoEnded else audioEnded
  end.

(** One run of [updateProgress]: the player afterwards, and whether the
    next animation frame was requested. *)
Definition updateProgress (p : Player) (videoMedia audioMedia : Media)
  : Player * bool :=
  let (currentTime, totalDuration) := followed p videoMedia audioMedia in
  let progress := min (elapsedShare currentTime totalDuration) 1 in
  let p1 := setPlaybackProgress progress p in
  if Qle_bool 0.999 progress || isPlaybackEnded p videoMedia audioMedia
  then (setPlaybackProgress 0 (setIsPlaying false p1), false)
  else (p1, true).

(** What the user and the parent can do to the controller. *)
Inductive Action : Type :=
| Toggle (m : PlaybackMode)
| ChangeOffset (newOffset : Q).

Definition act (p : Player) (a : Action) : Player :=
  match a with
  | Toggle m => togglePlayback m p
  | ChangeOffset newOffset => changeOffset newOffset p
  end.

(** ** Dragging the waveform ([handleMouseDown], [handleMouseUp],
    [getAudioOffsetPixels]) *)

(** The three state variables of a drag. *)
Record DragState : Type := mkDragState
  { isDragging : bool; dragStartX : Q; dragStartOffset : Q }.

(** [handleMouseDown]; it returns early while [containerRef.current] is
    null. *)
Definition handleMouseDown (containerWidth : option Q) (clientX : Q)
           (offsetSeconds : Q) (drag : DragState) : DragState :=
  match containerWidth with
  | None => drag
  | Some _ => mkDragState true clientX offsetSeconds
  end.

Definition handleMouseUp (drag : DragState) : DragState :=
  mkDragState false (dragStartX drag) (dragStartOffset drag).

(** [handleMouseMove] on the state of the drag. *)
Definition moveDuring (drag : DragState) (containerWidth : option Q)
           (clientX : Q) : option num :=
  handleMouseMove (isDragging drag) containerWidth clientX
                  (dragStartX drag) (dragStartOffset drag).

(** [getAudioOffsetPixels]: the shift of the audio waveform. *)
Definition getAudioOffsetPixels (containerWidth : option Q)
           (offsetSeconds : Q) : Q :=
  match containerWidth with
  | None => 0
  | Some width => (offsetSeconds / 10) * width
  end.

(** ** Beat detection by amplitude ([detectBeats], [lowPassFilter]) *)

(** [Math.PI], the double nearest to pi. *)
Definition PI : Q := 884279719003555 # 281474976710656.

(** The loop of [lowPassFilter] from index 1 on; [previous] is
    [filtered[i-1]]. *)
Fixpoint lowPassFrom (alpha previous : Q) (signal : list Q) : list Q :=
  match signal with
  | [] => []
  | x :: rest =>
      let y := previous + alpha * (x - previous) in
      y :: lowPassFrom alpha y rest
  end.

(** [lowPassFilter]; the sample rate of a decoded track is not zero, and
    neither is the cutoff.  Writing [filtered[0]] into an empty array does
    nothing. *)
Definition lowPassFilter (signal : list Q) (sampleRate cutoffFreq : Q)
  : list Q :=
  let rc := 1 / (cutoffFreq * 2 * PI) in
  let dt := 1 / sampleRate in
  let alpha := dt / (rc + dt) in
  match signal with
  | [] => []
  | first :: rest => first :: lowPassFrom alpha first rest
  end.

Definition minBeatInterval : Q := 0.25.
Definition threshold : Q := 0.5.

(** One turn of the loop of [detectBeats] on [(beats, lastBeatSample)]. *)
Definition beatStep (filtered : list Q) (sampleRate : Q)
           (minBeatIntervalSamples : Z) (state : list Q * Z) (i : nat)
  : list Q * Z :=
  let '(beats, lastBeatSample) := state in
  let sample k := nth k filtered 0 in
  if ltb threshold (sample i)
     && ltb (sample (i - 1)%nat) (sample i)
     && ltb (sample (i + 1)%nat) (sample i)
     && (minBeatIntervalSamples <? Z.of_nat i - lastBeatSample)%Z
  then (beats ++ [inject_Z (Z.of_nat i) / sampleRate], Z.of_nat i)
  else state.

(** [detectBeats]: the onsets of the features when there are some, and
    else the peaks of the filtered signal, for [i] from 1 to
    [filtered.length - 2]. *)
Definition detectBeats (audioData : list Q) (sampleRate : Q)
           (features : option FeatureSet) : list Q :=
  if present features onsets then fieldOf features onsets
  else
    let minBeatIntervalSamples := Qfloor (minBeatInterval * sampleRate) in
    let filtered := lowPassFilter audioData sampleRate 200 in
    fst (fold_left (beatStep filtered sampleRate minBeatIntervalSamples)
                   (seq 1 (length filtered - 2))
                   ([], (- minBeatIntervalSamples)%Z)).

(** ** Resizing a text overlay ([handleResize] of [TextPreview.tsx]) *)

(** The fields read from [getBoundingClientRect()]. *)
Module DOMRect.
Record t : Type := mk { left : Q; width : Q }.
End DOMRect.



(** ** Text overlays ([addTextElement], [updateTextElement],
    [removeTextElement] of [TextPreview.tsx]) *)

Module TextElement.
Record t : Type := mk
  { id : string; text : string; color : string; font : string;
    size : Q; position : Q * Q }.
End TextElement.

(** [Partial<TextElement>]: the fields that are given. *)
Record TextUpdates : Type := mkTextUpdates
  { newId : option string; newText : option string;
    newColor : option string; newFont : option string;
    newSize : option Q; newPosition : option (Q * Q) }.

Definition orElse {A : Type} (given : option A) (old : A) : A :=
  match given with
  | Some a => a
  | None => old
  end.

(** [{ ...el, ...updates }]. *)
Definition spread (el : TextElement.t) (updates : TextUpdates)
  : TextElement.t :=
  TextElement.mk (orElse (newId updates) (TextElement.id el))
                 (orElse (newText updates) (TextElement.text el))
                 (orElse (newColor updates) (TextElement.color el))
                 (orElse (newFont updates) (TextElement.font el))
                 (orElse (newSize updates) (TextElement.size el))
                 (orElse (newPosition updates) (TextElement.position el)).

(** [addTextElement]; [randomId] is
    [Math.random().toString(36).substring(7)]. *)
Definition addTextElement (randomId : string)
           (textElements : list TextElement.t) : list TextElement.t :=
  textElements ++ [TextElement.mk randomId "" "#ffffff" "Inter" 24 (50, 50)].

Definition updateTextElement (target : string) (updates : TextUpdates)
           (textElements : list TextElement.t) : list TextElement.t :=
  map (fun el =>
         if String.eqb (TextElement.id el) target then spread el updates
         else el)
      textElements.

Definition removeTextElement (target : string)
           (textElements : list TextElement.t) : list TextElement.t :=
  filter (fun el => negb (String.eqb (TextElement.id el) target))
         textElements.

(** ** Preview box and export history ([getPreviewDimensions],
    [addExportRecord] of [page.tsx]) *)

(** [getPreviewDimensions]: [container] holds [clientWidth] and
    [clientHeight] of [previewRef.current], and [width] and [height] are
    the two numbers of the aspect ratio, neither of them zero. *)
Definition getPreviewDimensions (container : option (Q * Q))
           (width height : Q) : Q * Q :=
  match container with
  | None => (0, 0)
  | Some (containerWidth, containerHeight) =>
      let aspectRatio := width / height in
      if Qle_bool (containerWidth / aspectRatio) containerHeight
      then (containerWidth - 40, (containerWidth - 40) / aspectRatio)
      else ((containerHeight - 40) * aspectRatio, containerHeight - 40)
  end.

(** [addExportRecord]: the update [prev => [newRecord, ...prev.slice(0, 9)]]
    of the history. *)
Definition addExportRecord {ExportRecord : Type} (newRecord : ExportRecord)
           (prev : list ExportRecord) : list ExportRecord :=
  newRecord :: slice prev 0 9.

(** ** Times as text ([formatTime] of [lib/utils.ts]) *)

(** [x % y] for finite numbers, [y] not zero: the remainder has the sign
    of [x]. *)
Definition remainder (x y : Q) : Q := x - y * inject_Z (trunc (x / y)).

(** [Number.MAX_SAFE_INTEGER], 2^53 - 1. *)
Definition maxSafeInteger : Q := 9007199254740991.

(** [n.toString()] for an integer [n]: all its digits.  JavaScript prints
    them all up to [maxSafeInteger]; beyond it the double that [n] stands
    for is printed, with zeros for the digits it does not hold, and from
    [1e21] on with an exponent. *)
Definition toString (n : Z) : string :=
  DecimalString.NilZero.string_of_int (Z.to_int n).

Fixpoint zeros (n : nat) : string :=
  match n with
  | O => EmptyString
  | S n' => ("0" ++ zeros n')%string
  end.

(** [s.padStart(targetLength, '0')]. *)
Definition padStart (targetLength : nat) (s : string) : string :=
  (zeros (targetLength - String.length s) ++ s)%string.

(** [formatTime].  For a time up to [maxSafeInteger] the double that
    [seconds / 60] is rounded to has the same whole part as the exact
    quotient, which is the one taken here; for a longer time the whole
    part of the rounded quotient may differ. *)
Definition formatTime (seconds : num) : string :=
  match seconds with
  | NaN | NegInf => "00:00"
  | PosInf => (padStart 2 "Infinity" ++ ":" ++ padStart 2 "NaN")%string
  | Num s =>
      if ltb s 0 then "00:00"
      else
        let minutes := Qfloor (s / 60) in
        let remainingSeconds := Qfloor (remainder s 60) in
        (padStart 2 (toString minutes) ++ ":"
         ++ padStart 2 (toString remainingSeconds))%string
  end.

(** ** Notions used to state the properties *)

(** [Math.max(-5, Math.min(5, x))]. *)
Definition clamp (x : num) : num := numMax (Num (-5)) (numMin (Num 5) x).



(** The sum of the products of the samples that face each other, and the
    sum of the squares. *)
Fixpoint dot (xs ys : list Q) : Q :=
  match xs, ys with
  | x :: xs', y :: ys' => x * y + dot xs' ys'
  | _, _ => 0
  end.

Fixpoint sumsq (xs : list Q) : Q :=
  match xs with
  | [] => 0
  | x :: xs' => x * x + sumsq xs'
  end.

(** The two intervals of the triples at [i] and [j] differ by less than
    0.1 second each. *)
Definition intervalsAgree (videoOnsets audioOnsets : list Q) (i j : nat)
  : Prop :=
  Qabs (fst (pattern videoOnsets i) - fst (pattern audioOnsets j)) < 0.1
  /\ Qabs (snd (pattern videoOnsets i) - snd (pattern audioOnsets j)) < 0.1.

(** The scores of [a] and [b] are numbers, and that of [b] is not the
    larger one. *)
Definition scoreOrder (a b : Weighted) : Prop :=
  match weightedScore a, weightedScore b with
  | Num x, Num y => y <= x
  | _, _ => False
  end.

Definition isPaused (ref : option AudioElement) : option bool :=
  option_map paused ref.

(** ** Inputs on which the code is run below *)

(** Both sources loaded and paused, nothing playing, no timeout pending. *)
Definition idlePlayer (offsetSeconds : Q) : Player :=
  mkPlayer (Some (mkAudioElement true 0)) (Some (mkAudioElement true 0))
           false both 0 offsetSeconds [].

Definition oneMfccCandidate : list Candidate :=
  [ mkCandidate (mkResult 0.1 1) "mfcc" ].

Definition agreeingCandidates : list Candidate :=
  [ mkCandidate (mkResult 0.1 1) "mfcc";
    mkCandidate (mkResult 0.5 0.1) "mfcc";
    mkCandidate (mkResult 0.1 1) "basic-correlation";
    mkCandidate (mkResult 0.1 1) "onset" ].

Definition shiftedOnsets : list Q := [0.004; 1.004; 2.004].
Definition plainOnsets : list Q := [0; 1; 2].

Definition farOnsets : list Q := [0.004; 1.004; 12.004].

(** Two clicks 8820 samples apart, silence otherwise. *)
Definition twoClicks : list Q := 1 :: repeat 0 (Z.to_nat 8819) ++ [1].

Definition shiftArrowRight : KeyboardEvent :=
  mkKeyboardEvent "ArrowRight" true false false.

Definition shiftArrowLeft : KeyboardEvent :=
  mkKeyboardEvent "ArrowLeft" true false false.

Definition absOrder (a b : Q) : Prop := Qabs a <= Qabs b.

(** The state of the loop of [extractAudioFeatures] once the frames before
    frame [n] are done: the arrays have matching sizes, every onset is the
    start of a later frame than the first one divided by the sample rate,
    the onsets increase, and an onset comes with a loud frame. *)
Definition extractedSoFar (sampleRate : Q) (n : nat) (state : FeatureSet * Q)
  : Prop :=
  let arrays := fst state in
  length (spectralCentroids arrays) = length (rms arrays)
  /\ (length (rms arrays) <= n)%nat
  /\ (length (onsets arrays) <= length (rms arrays))%nat
  /\ (3 * length (mfccs arrays) <= n + 2)%nat
  /\ Forall (fun t => exists j, (0 < j < n)%nat
                                /\ t = inject_Z (Z.of_nat j * hopSize)
                                       / sampleRate)
            (onsets arrays)
  /\ StronglySorted Qlt (onsets arrays)
  /\ (onsets arrays = [] \/ Exists (fun r => 0.1 < r) (rms arrays)).

(** A stand-in for Meyda on which the extraction is run below: the energy
    of a frame is the magnitude of its first sample. *)
Definition firstSampleMeyda (frame : list Q) : Meyda.Outcome :=
  Meyda.Extracted
    (Meyda.mkFeatures (Some 1) (Some (Qabs (nth 0 frame 0)))
                      (Some [nth 0 frame 0; 1])).

(** Four blocks of 4096 samples: silence, a tone, silence, a louder tone. *)
Definition fourBlocks : list Q :=
  repeat 0 (Z.to_nat 4096) ++ repeat 1 (Z.to_nat 4096)
  ++ repeat 0 (Z.to_nat 4096) ++ repeat 3 (Z.to_nat 4096).


(** The sizes of the arrays once the frames before frame [n] are done. *)
Definition sizesSoFar (n : nat) (state : FeatureSet * Q) : Prop :=
  let arrays := fst state in
  length (spectralCentroids arrays) = length (rms arrays)
  /\ (length (rms arrays) <= n)%nat
  /\ (length (onsets arrays) <= length (rms arrays))%nat
  /\ (3 * length (mfccs arrays) <= n + 2)%nat.

(** A session of the player in [both] mode, the video 3 s into its 10 s. *)
Definition midwayPlayer : Player :=
  mkPlayer (Some (mkAudioElement false 3)) (Some (mkAudioElement false 1.5))
           true both 0 1.5 [].

(** The player with another uploaded audio element in place of its own,
    or with none. *)
Definition withUploadedAudio (el : option AudioElement) (p : Player)
  : Player :=
  mkPlayer (videoAudioRef p) el (isPlaying p) (playbackMode p)
           (playbackProgress p) (offsetSeconds p) (timeouts p).

(** What the loop of [detectBeats] keeps true before turn [i]. *)
Definition beatsSoFar (sampleRate : Q) (i : nat) (state : list Q * Z) : Prop :=
  StronglySorted (fun a b => a + 0.25 < b) (fst state)
  /\ Forall (fun t => 0 < t /\ t * sampleRate <= inject_Z (snd state))
            (fst state)
  /\ (snd state < Z.of_nat i)%Z.


(** * Properties *)

(** ** Facts about the JavaScript operations *)

Lemma ltb_lt (a b : Q) : ltb a b = true <-> a < b.
Proof.
  unfold ltb. rewrite negb_true_iff.
  destruct (Qle_bool b a) eqn:E.
  - apply Qle_bool_iff in E. split; [discriminate | intro; exfalso; lra].
  - split; [intros _ | reflexivity].
    destruct (Qlt_le_dec a b) as [H | H]; [exact H |].
    apply Qle_bool_iff in H. congruence.
Qed.

Lemma ltb_ge (a b : Q) : ltb a b = false <-> b <= a.
Proof.
  unfold ltb. rewrite negb_false_iff. apply Qle_bool_iff.
Qed.

Lemma includes_InA (x : Q) (arr : list Q) :
  includes x arr = true <-> InA Qeq x arr.
Proof.
  unfold includes. rewrite existsb_exists, InA_alt. split.
  - intros [y [Hy E]]. exists y. split; [now apply Qeq_bool_iff | exact Hy].
  - intros [y [E Hy]]. exists y. split; [exact Hy | now apply Qeq_bool_iff].
Qed.

Lemma setAdd_NoDupA (s : list Q) (x : Q) :
  NoDupA Qeq s -> NoDupA Qeq (setAdd s x).
Proof.
  intros Hs. unfold setAdd. destruct (includes x s) eqn:E; [exact Hs |].
  apply NoDupA_app; [exact Q_Setoid | exact Hs | |].
  - constructor; [intro H; inversion H | constructor].
  - intros y Hy Hx. inversion Hx as [? ? Hyx | ? ? H]; [| inversion H]. subst.
    assert (includes x s = true) as Hin.
    { apply includes_InA.
      eapply InA_eqA; [exact Q_Setoid | exact Hyx | exact Hy]. }
    congruence.
Qed.

Lemma newSet_NoDupA (arr : list Q) : NoDupA Qeq (newSet arr).
Proof.
  unfold newSet.
  assert (forall s, NoDupA Qeq s -> NoDupA Qeq (fold_left setAdd arr s)) as H.
  { induction arr as [| x arr IH]; intros s Hs; simpl; [exact Hs |].
    apply IH. now apply setAdd_NoDupA. }
  apply H. constructor.
Qed.

Lemma filter_InA (f : Q -> bool) (x : Q) (l : list Q) :
  InA Qeq x (filter f l) -> InA Qeq x l.
Proof.
  rewrite !InA_alt. intros [y [E Hy]]. apply filter_In in Hy.
  exists y. tauto.
Qed.

Lemma filter_NoDupA (f : Q -> bool) (l : list Q) :
  NoDupA Qeq l -> NoDupA Qeq (filter f l).
Proof.
  induction 1 as [| x l Hx Hl IH]; simpl; [constructor |].
  destruct (f x); [| exact IH].
  constructor; [| exact IH]. intro H. apply Hx. eapply filter_InA, H.
Qed.

Section SortFacts.
Context {A : Type} (cmp : A -> A -> Q).

Lemma insert_perm (x : A) (l : list A) : Permutation (insert cmp x l) (x :: l).
Proof.
  induction l as [| y l IH]; simpl; [reflexivity |].
  destruct (Qle_bool (cmp x y) 0); [reflexivity |].
  rewrite IH. apply perm_swap.
Qed.

Lemma sort_perm (l : list A) : Permutation (sort cmp l) l.
Proof.
  induction l as [| x l IH]; simpl; [reflexivity |].
  rewrite insert_perm. now constructor.
Qed.

(** The comparator orders any two elements one way or the other. *)
Hypothesis cmp_total : forall a b, cmp a b <= 0 \/ cmp b a <= 0.

Let before (a b : A) : Prop := cmp a b <= 0.

Lemma insert_sorted (x : A) (l : list A) :
  Sorted before l -> Sorted before (insert cmp x l).
Proof.
  induction 1 as [| y l Hl IH Hy]; simpl.
  - repeat constructor.
  - destruct (Qle_bool (cmp x y) 0) eqn:E.
    + apply Qle_bool_iff in E. repeat constructor; assumption.
    + constructor; [exact IH |].
      assert (before y x) as Hyx.
      { destruct (cmp_total x y) as [H | H]; [| exact H].
        apply Qle_bool_iff in H. congruence. }
      destruct l as [| z l]; simpl.
      * constructor. exact Hyx.
      * destruct (Qle_bool (cmp x z) 0); constructor;
          [exact Hyx | now inversion Hy].
Qed.

Lemma sort_sorted (l : list A) : Sorted before (sort cmp l).
Proof.
  induction l as [| x l IH]; simpl; [constructor | now apply insert_sorted].
Qed.

End SortFacts.

Lemma Sorted_weaken {A : Type} (R R' : A -> A -> Prop) (l : list A) :
  (forall a b, R a b -> R' a b) -> Sorted R l -> Sorted R' l.
Proof.
  intros HR. induction 1 as [| x l Hl IH Hx]; constructor; [exact IH |].
  destruct Hx; constructor. now apply HR.
Qed.

Lemma StronglySorted_app_inv {A : Type} (R : A -> A -> Prop) (l1 l2 : list A) :
  StronglySorted R (l1 ++ l2) -> Forall (fun a => Forall (R a) l2) l1.
Proof.
  induction l1 as [| a l1 IH]; simpl; intros H; [constructor |].
  inversion H as [| ? ? Htail Hhead]; subst. constructor.
  - apply Forall_app in Hhead. tauto.
  - now apply IH.
Qed.

(** ** The suggestion aggregator *)

Lemma sortedResults_perm (enhancedResults : list Candidate) :
  Permutation (sortedResults enhancedResults) (weightedResults enhancedResults).
Proof. apply sort_perm. Qed.

Lemma weightOf_table (m : string) :
  weightOf m =
  if String.eqb "mfcc" m then Num 0.5
  else if String.eqb "onset" m then Num 0.3
  else if String.eqb "basic-correlation" m then Num 0.2
  else if inherited m then NaN
  else Num 0.1.
Proof.
  unfold weightOf, methodWeights, lookupWeight.
  destruct (String.eqb "mfcc" m); [reflexivity |].
  destruct (String.eqb "onset" m); [reflexivity |].
  destruct (String.eqb "basic-correlation" m); reflexivity.
Qed.

(** The score of a candidate whose method is not an inherited name is a
    number. *)
Lemma weightedResults_numbers (enhancedResults : list Candidate) :
  Forall (fun c => inherited (method c) = false) enhancedResults ->
  Forall (fun w => exists x, weightedScore w = Num x)
         (weightedResults enhancedResults).
Proof.
  intros Hown. unfold weightedResults. apply Forall_map.
  eapply Forall_impl; [| exact Hown]. cbn beta. intros c Hc.
  cbn [weightedScore]. rewrite weightOf_table, Hc.
  destruct (String.eqb "mfcc" (method c)); [eexists; reflexivity |].
  destruct (String.eqb "onset" (method c)); [eexists; reflexivity |].
  destruct (String.eqb "basic-correlation" (method c));
    eexists; reflexivity.
Qed.

Lemma byScoreDesc_total (a b : Weighted) :
  byScoreDesc a b <= 0 \/ byScoreDesc b a <= 0.
Proof.
  unfold byScoreDesc.
  destruct (weightedScore a) as [x | | |], (weightedScore b) as [y | | |];
    try (left; discriminate); try (right; discriminate).
  destruct (Qlt_le_dec x y); [right | left]; lra.
Qed.

Lemma Sorted_among {A : Type} (R : A -> A -> Prop) (P : A -> Prop)
      (l : list A) :
  Sorted R l -> Forall P l -> Sorted (fun a b => R a b /\ P a /\ P b) l.
Proof.
  induction 1 as [| x l Hl IH Hx]; intros HP; constructor.
  - apply IH. now inversion HP.
  - inversion HP as [| ? ? Px Pl]; subst.
    destruct Hx as [| y l Hxy]; constructor.
    inversion Pl; subst. tauto.
Qed.

Lemma sortedResults_sorted (enhancedResults : list Candidate) :
  Forall (fun c => inherited (method c) = false) enhancedResults ->
  StronglySorted scoreOrder (sortedResults enhancedResults).
Proof.
  intros Hown. apply Sorted_StronglySorted.
  - intros a b c. unfold scoreOrder.
    destruct (weightedScore a), (weightedScore b), (weightedScore c);
      try contradiction.
    intros; lra.
  - apply Sorted_weaken
      with (R := fun a b => byScoreDesc a b <= 0
                            /\ (exists x, weightedScore a = Num x)
                            /\ (exists y, weightedScore b = Num y)).
    + unfold byScoreDesc, scoreOrder. intros a b (Hab & [x Ex] & [y Ey]).
      rewrite Ex, Ey in *. lra.
    + apply Sorted_among.
      * apply sort_sorted, byScoreDesc_total.
      * eapply Permutation_Forall;
          [symmetry; apply sortedResults_perm
          | now apply weightedResults_numbers].
Qed.

Lemma uniqueSuggestions_perm (enhancedResults : list Candidate) :
  Permutation
    (uniqueSuggestions enhancedResults)
    (filter inRange
       (newSet (addZero (addVariance (topSuggestions enhancedResults))))).
Proof. apply sort_perm. Qed.

Lemma inRange_spec (o : Q) : inRange o = true <-> -5 <= o /\ o <= 5.
Proof.
  unfold inRange. rewrite andb_true_iff, !Qle_bool_iff. reflexivity.
Qed.

(** C1, as stated, fails: for the single MFCC candidate at offset 0.1 the
    suggestions are 0, 0.05, 0.1 and 0.15; 0.05 is not rounded to one
    decimal, and 0.05 and 0.1 are equal after rounding to 0.1s. *)
Lemma suggestions_not_rounded :
  uniqueSuggestions oneMfccCandidate = [0; 0.050; 0.1; 0.150]
  /\ ~ Forall (fun o => roundTenth o == o) (uniqueSuggestions oneMfccCandidate)
  /\ ~ NoDupA Qeq (map roundTenth (uniqueSuggestions oneMfccCandidate)).
Proof.
  assert (uniqueSuggestions oneMfccCandidate = [0; 0.050; 0.1; 0.150]) as E
    by (vm_compute; reflexivity).
  rewrite E. split; [reflexivity | split].
  - intro H. apply Forall_inv_tail, Forall_inv in H.
    vm_compute in H. discriminate.
  - cbn [map]. intro H. inversion H as [| x l _ Htail]; subst.
    inversion Htail as [| y l' Hfresh _]; subst.
    apply Hfresh. left. vm_compute. reflexivity.
Qed.

(** C1, amended: every suggestion lies in [-5, 5] and no two suggestions
    are equal; they are not rounded. *)
Theorem suggestions_in_range_and_distinct (enhancedResults : list Candidate) :
  Forall (fun o => -5 <= o /\ o <= 5) (uniqueSuggestions enhancedResults)
  /\ NoDupA Qeq (uniqueSuggestions enhancedResults).
Proof.
  pose proof (uniqueSuggestions_perm enhancedResults) as P.
  split.
  - eapply Permutation_Forall; [symmetry; exact P |].
    apply Forall_forall. intros o Ho. apply filter_In in Ho.
    now apply inRange_spec.
  - eapply PermutationA_preserves_NoDupA; [exact Q_Setoid | |].
    + apply Permutation_PermutationA; [exact Q_Setoid | symmetry; exact P].
    + apply filter_NoDupA, newSet_NoDupA.
Qed.

(** The score of a candidate whose method is an inherited name, such as
    [constructor] or [toString], is [NaN] whatever its confidence. *)
Lemma inherited_method_scores_NaN (c : Candidate) :
  inherited (method c) = true ->
  map weightedScore (weightedResults [c]) = [NaN].
Proof.
  intros Hc. unfold inherited in Hc. apply existsb_exists in Hc.
  destruct Hc as [name [Hin Hname]]. apply String.eqb_eq in Hname.
  cbn [weightedResults map weightedScore]. rewrite Hname.
  unfold inheritedNames in Hin. cbn [In] in Hin.
  repeat (destruct Hin as [<- | Hin]; [reflexivity |]).
  contradiction.
Qed.

(** C6, as stated, fails: the three best-scored candidates may share one
    offset; the primary set then repeats it and leaves out the next
    distinct offset. *)
Lemma top_three_repeat_an_offset :
  topSuggestions agreeingCandidates = [0.1; 0.1; 0.1]
  /\ ~ NoDupA Qeq (topSuggestions agreeingCandidates)
  /\ ~ InA Qeq 0.5 (topSuggestions agreeingCandidates)
  /\ In 0.5 (map (fun c => offset (base c)) agreeingCandidates).
Proof.
  assert (topSuggestions agreeingCandidates = [0.1; 0.1; 0.1]) as E
    by (vm_compute; reflexivity).
  rewrite E. split; [reflexivity | split; [| split]].
  - intro H. inversion H as [| ? ? H1 _]. apply H1. left. reflexivity.
  - intro H. rewrite InA_alt in H. destruct H as [y [Hy Hin]].
    simpl in Hin.
    destruct Hin as [<- | [<- | [<- | []]]]; vm_compute in Hy; discriminate.
  - simpl. right. left. reflexivity.
Qed.

(** C6, amended: the weight of a method is 0.5 for mfcc, 0.3 for onset, 0.2
    for basic-correlation, not a number for a property name that the
    table inherits from [Object.prototype], and otherwise 0.1.  For every
    candidate list without such an inherited name, the weighted score is
    the confidence times the weight of the method, the candidates are
    sorted by descending weighted score, and the primary suggestions are
    the offsets of the first three candidates of that order, repeated
    offsets included: none of the candidates left out has a larger
    weighted score than one of the three. *)
Theorem weighted_order_and_top_three (enhancedResults : list Candidate) :
  Forall (fun c => inherited (method c) = false) enhancedResults ->
  (forall m, weightOf m =
             if String.eqb "mfcc" m then Num 0.5
             else if String.eqb "onset" m then Num 0.3
             else if String.eqb "basic-correlation" m then Num 0.2
             else if inherited m then NaN
             else Num 0.1)
  /\ Forall (fun w => weightedScore w
                      = numMul (Num (correlation (base (result w))))
                               (weightOf (method (result w)))
                      /\ exists weight,
                          weightOf (method (result w)) = Num weight
                          /\ weightedScore w
                             = Num (correlation (base (result w)) * weight))
            (sortedResults enhancedResults)
  /\ Permutation (map result (sortedResults enhancedResults)) enhancedResults
  /\ StronglySorted scoreOrder (sortedResults enhancedResults)
  /\ exists top rest,
      sortedResults enhancedResults = top ++ rest
      /\ length top = Nat.min 3 (length enhancedResults)
      /\ topSuggestions enhancedResults
         = map (fun w => offset (base (result w))) top
      /\ Forall (fun t => Forall (fun r => scoreOrder t r) rest) top.
Proof.
  intros Hown.
  pose proof (sortedResults_perm enhancedResults) as Hperm.
  pose proof (sortedResults_sorted enhancedResults Hown) as Hsorted.
  split; [exact weightOf_table |].
  split; [| split; [| split; [exact Hsorted |]]].
  - eapply Permutation_Forall; [symmetry; exact Hperm |].
    unfold weightedResults. apply Forall_map.
    eapply Forall_impl; [| exact Hown]. cbn beta. intros c Hc.
    cbn [weightedScore result]. split; [reflexivity |].
    rewrite weightOf_table, Hc.
    destruct (String.eqb "mfcc" (method c));
      [eexists; split; reflexivity |].
    destruct (String.eqb "onset" (method c));
      [eexists; split; reflexivity |].
    destruct (String.eqb "basic-correlation" (method c));
      eexists; split; reflexivity.
  - rewrite (Permutation_map result Hperm).
    unfold weightedResults. rewrite map_map. cbn [result].
    rewrite map_id. reflexivity.
  - exists (firstn 3 (sortedResults enhancedResults)),
           (skipn 3 (sortedResults enhancedResults)).
    split; [symmetry; apply firstn_skipn |].
    split; [| split; [reflexivity |]].
    + rewrite length_firstn, (Permutation_length Hperm).
      unfold weightedResults. now rewrite length_map.
    + apply StronglySorted_app_inv. now rewrite firstn_skipn.
Qed.

Lemma weighted_order_and_top_three_witness :
  StronglySorted scoreOrder (sortedResults agreeingCandidates).
Proof.
  apply (weighted_order_and_top_three agreeingCandidates).
  repeat constructor.
Defined.

(** ** The playback controller *)

Lemma stopPlayback_keeps_timeouts (p : Player) :
  timeouts (stopPlayback p) = timeouts p.
Proof. reflexivity. Qed.

(** What the effect on [offsetSeconds] does to a playing session: it stops
    the session and pauses both sources, and leaves the pending timeouts
    where they are. *)
Lemma changeOffset_while_playing (newOffset : Q) (p : Player) :
  isPlaying p = true ->
  ~ newOffset == offsetSeconds p ->
  let p' := changeOffset newOffset p in
  isPlaying p' = false
  /\ playbackProgress p' = 0
  /\ isPaused (videoAudioRef p') = option_map (fun _ => true) (videoAudioRef p)
  /\ isPaused (uploadedAudioRef p') =
     option_map (fun _ => true) (uploadedAudioRef p)
  /\ timeouts p' = timeouts p.
Proof.
  intros Hplay Hneq. unfold changeOffset.
  destruct (Qeq_bool newOffset (offsetSeconds p)) eqn:E.
  - apply Qeq_bool_iff in E. contradiction.
  - cbn. rewrite Hplay. cbn.
    destruct (videoAudioRef p), (uploadedAudioRef p); repeat split; reflexivity.
Qed.

(** In [both] mode with a positive offset the video source starts at once
    and the uploaded audio is scheduled after [offsetSeconds] seconds. *)
Lemma togglePlayback_both_positive (o : Q) :
  0 < o ->
  let p := togglePlayback both (idlePlayer o) in
  isPlaying p = true
  /\ isPaused (videoAudioRef p) = Some false
  /\ isPaused (uploadedAudioRef p) = Some true
  /\ timeouts p = [mkTimeout (o * 1000) uploadedAudio].
Proof.
  intros Ho. unfold togglePlayback, startUploadedAudio. cbn.
  apply ltb_lt in Ho. rewrite Ho. cbn. repeat split; reflexivity.
Qed.

(** In [video] mode only the video source starts, whatever the offset. *)
Lemma togglePlayback_video_only (o : Q) :
  let p := togglePlayback video (idlePlayer o) in
  isPlaying p = true
  /\ isPaused (videoAudioRef p) = Some false
  /\ isPaused (uploadedAudioRef p) = Some true
  /\ timeouts p = [].
Proof. cbn. repeat split; reflexivity. Qed.

(** C2: a session started in [both] mode with offset 1.5 has the start of
    the uploaded audio pending; when the offset changes to 2 the session is
    stopped (not playing, both sources paused, progress 0) but the timeout
    is still pending, and when it fires the uploaded audio plays although
    [isPlaying] is false. *)
Theorem deferred_start_survives_offset_change :
  let playing := togglePlayback both (idlePlayer 1.5) in
  let stopped := changeOffset 2 playing in
  let later := fire 0 stopped in
  (isPlaying playing = true
   /\ map starts (timeouts playing) = [uploadedAudio]
   /\ map delay (timeouts playing) = [1.5 * 1000])
  /\ (isPlaying stopped = false
      /\ playbackProgress stopped = 0
      /\ isPaused (videoAudioRef stopped) = Some true
      /\ isPaused (uploadedAudioRef stopped) = Some true
      /\ timeouts stopped = timeouts playing)
  /\ (isPlaying later = false
      /\ isPaused (uploadedAudioRef later) = Some false).
Proof. vm_compute. repeat split; reflexivity. Qed.

(** C3: at offset -1.5 in [both] mode the video source is started at once,
    together with the uploaded audio, and the timeout only calls [play()]
    on it again; at offset 1.5 in [audio] mode the uploaded audio is not
    started but scheduled 1500 ms later. *)
Theorem start_ignores_negative_offset_and_delays_audio_only :
  let early := togglePlayback both (idlePlayer (-1.5)) in
  let alone := togglePlayback audio (idlePlayer 1.5) in
  (isPaused (videoAudioRef early) = Some false
   /\ isPaused (uploadedAudioRef early) = Some false
   /\ map starts (timeouts early) = [videoAudio])
  /\ (isPaused (videoAudioRef alone) = Some true
      /\ isPaused (uploadedAudioRef alone) = Some true
      /\ map starts (timeouts alone) = [uploadedAudio]
      /\ map delay (timeouts alone) = [1.5 * 1000]).
Proof. vm_compute. repeat split; reflexivity. Qed.

(** ** The visualisation waveform *)

Lemma normalizedData_length (rawData : list Q) :
  length (normalizedData rawData) = 150%nat.
Proof.
  unfold normalizedData, filteredData. now rewrite !length_map, length_seq.
Qed.


(** With fewer than 150 samples the block size is 0, every block average is
    0/0, and so is every entry of the waveform. *)
Lemma normalizedData_short (rawData : list Q) :
  (length rawData < 150)%nat ->
  normalizedData rawData = repeat NaN 150.
Proof.
  intros Hlen. unfold normalizedData, filteredData, blockSize, samples.
  rewrite (Nat.div_small _ _ Hlen). reflexivity.
Qed.






(** C4: a decoded track of a single sample is accepted (it is not empty),
    its waveform has 150 entries, and every entry is [NaN]: the block size
    is [floor(1/150) = 0] and each block average is 0/0. *)
Theorem waveform_of_short_track_is_NaN :
  blockSize [0.5] = 0%nat
  /\ length (normalizedData [0.5]) = 150%nat
  /\ normalizedData [0.5] = repeat NaN 150
  /\ ~ Forall (fun n => exists q, n = Num q /\ 0 <= q /\ q <= 1)
              (normalizedData [0.5]).
Proof.
  split; [reflexivity | split; [apply normalizedData_length | split]].
  - apply normalizedData_short. simpl. lia.
  - rewrite normalizedData_short by (simpl; lia).
    intro H. apply Forall_inv in H. destruct H as [q [H _]]. discriminate.
Qed.

(** ** Rounding with [toFixed] *)

Lemma inject_Z_nonneg (z : Z) : (0 <= z)%Z -> 0 <= inject_Z z.
Proof. intros H. unfold Qle. simpl. lia. Qed.

Lemma inject_Z_pos (z : Z) : (0 < z)%Z -> 0 < inject_Z z.
Proof. intros H. unfold Qlt. simpl. lia. Qed.

Lemma toFixed_magnitude (scale : Z) (x : Q) :
  (0 < scale)%Z ->
  exists n : Z,
    (0 <= n)%Z
    /\ inject_Z n <= Qabs x * inject_Z scale + (1 # 2)
    /\ Qabs x * inject_Z scale + (1 # 2) < inject_Z n + 1
    /\ (toFixed scale x == inject_Z n / inject_Z scale
        \/ toFixed scale x == - (inject_Z n / inject_Z scale)).
Proof.
  intros Hscale.
  set (y := Qabs x * inject_Z scale + (1 # 2)).
  assert (0 <= y) as Hy.
  { unfold y. pose proof (Qabs_nonneg x) as Hx.
    assert (0 <= inject_Z scale) as Hs by (apply inject_Z_nonneg; lia).
    pose proof (Qmult_le_0_compat _ _ Hx Hs). lra. }
  exists (Qfloor y). repeat split.
  - apply (Qfloor_resp_le 0 y Hy).
  - apply Qfloor_le.
  - pose proof (Qlt_floor y) as H. rewrite inject_Z_plus in H. exact H.
  - unfold toFixed. fold y. destruct (Qle_bool 0 x); [left | right]; reflexivity.
Qed.

(** Rounding does not leave an interval with integer ends. *)
Lemma toFixed_bounded (scale bound : Z) (x : Q) :
  (0 < scale)%Z -> Qabs x <= inject_Z bound ->
  Qabs (toFixed scale x) <= inject_Z bound.
Proof.
  intros Hscale Hx.
  destruct (toFixed_magnitude scale x Hscale) as [n [Hn0 [Hlo [_ Hval]]]].
  assert (0 < inject_Z scale) as Hs by now apply inject_Z_pos.
  assert (n <= bound * scale)%Z as Hn.
  { assert (inject_Z n < inject_Z (bound * scale + 1)) as H.
    { rewrite inject_Z_plus, inject_Z_mult.
      eapply Qle_lt_trans; [exact Hlo |].
      assert (Qabs x * inject_Z scale <= inject_Z bound * inject_Z scale)
        by (apply Qmult_le_compat_r; [exact Hx | lra]).
      change (inject_Z 1) with 1. lra. }
    rewrite <- Zlt_Qlt in H. lia. }
  assert (0 <= inject_Z n / inject_Z scale) as H0.
  { apply Qle_shift_div_l; [exact Hs |]. rewrite Qmult_0_l.
    now apply inject_Z_nonneg. }
  assert (inject_Z n / inject_Z scale <= inject_Z bound) as H1.
  { apply Qle_shift_div_r; [exact Hs |]. rewrite <- inject_Z_mult.
    rewrite <- Zle_Qle. exact Hn. }
  apply Qabs_Qle_condition.
  destruct Hval as [-> | ->]; split; lra.
Qed.

(** The result of rounding is a multiple of [1 / scale]. *)
Lemma toFixed_multiple (scale : Z) (x : Q) :
  exists m : Z, toFixed scale x == inject_Z m / inject_Z scale.
Proof.
  unfold toFixed. destruct (Qle_bool 0 x).
  - eexists. reflexivity.
  - exists (- Qfloor (Qabs x * inject_Z scale + (1 # 2)))%Z.
    rewrite inject_Z_opp. unfold Qdiv. ring.
Qed.

(** ** Manual adjustment of the offset *)

Lemma clamp_cases (x : num) :
  (x = NaN /\ clamp x = NaN)
  \/ exists q, clamp x = Num q /\ -5 <= q /\ q <= 5.
Proof.
  destruct x as [q | | |]; unfold clamp; simpl.
  - right. unfold JS.min, JS.max.
    destruct (Qle_bool 5 q) eqn:E1.
    + destruct (Qle_bool (-5) 5) eqn:E2; eexists; (split; [reflexivity | lra]).
    + apply (proj2 (Bool.not_true_iff_false _)) in E1.
      rewrite Qle_bool_iff in E1.
      destruct (Qle_bool (-5) q) eqn:E2.
      * apply Qle_bool_iff in E2. eexists; (split; [reflexivity | lra]).
      * eexists; (split; [reflexivity | lra]).
  - right. exists 5. split; [reflexivity | lra].
  - right. exists (-5). split; [reflexivity | lra].
  - left. split; reflexivity.
Qed.

(** Dragging: the value handed to [onOffsetChange] is a multiple of 0.1 in
    [-5, 5]; it is [NaN] only when the container has no width and the
    pointer has not moved. *)
Lemma handleMouseMove_clamps (isDragging : bool) (containerWidth : option Q)
      (clientX dragStartX dragStartOffset : Q) (reported : num) :
  handleMouseMove isDragging containerWidth clientX dragStartX dragStartOffset
  = Some reported ->
  (reported = NaN
   /\ (exists width, containerWidth = Some width /\ width == 0)
   /\ clientX == dragStartX)
  \/ exists q, reported = Num q
               /\ -5 <= q /\ q <= 5
               /\ exists m : Z, q == inject_Z m / inject_Z 10.
Proof.
  unfold handleMouseMove.
  destruct containerWidth as [width |]; [| discriminate].
  destruct isDragging; [| discriminate]. cbn [negb].
  set (x := numAdd _ _).
  change (numMax (Num (-5)) (numMin (Num 5) x)) with (clamp x).
  destruct (clamp_cases x) as [[Hx ->] | [q [-> [Hlo Hhi]]]];
    intros H; injection H as <-.
  - left. split; [reflexivity |].
    unfold x, numDiv in Hx.
    destruct (Qeq_bool width 0) eqn:Ew.
    + destruct (Qeq_bool (clientX - dragStartX) 0) eqn:Ed.
      * apply Qeq_bool_iff in Ew, Ed. split; [now exists width | lra].
      * exfalso. destruct (ltb 0 (clientX - dragStartX)); discriminate.
    + discriminate.
  - right. exists (toFixed 10 q). split; [reflexivity |].
    assert (Qabs (toFixed 10 q) <= inject_Z 5) as Hb.
    { apply toFixed_bounded; [lia |]. apply Qabs_Qle_condition.
      change (inject_Z 5) with 5. split; lra. }
    apply Qabs_Qle_condition in Hb. change (inject_Z 5) with 5 in Hb.
    split; [lra | split; [lra |]]. apply toFixed_multiple.
Qed.

(** [applySuggestion] keeps a suggestion of [-5, 5] in range and rounds it
    to a multiple of 0.1. *)
Lemma applySuggestion_rounds (o : Q) :
  -5 <= o -> o <= 5 ->
  -5 <= applySuggestion o /\ applySuggestion o <= 5
  /\ exists m : Z, applySuggestion o == inject_Z m / inject_Z 10.
Proof.
  intros Hlo Hhi. unfold applySuggestion.
  assert (Qabs (toFixed 10 o) <= inject_Z 5) as Hb.
  { apply toFixed_bounded; [lia |]. apply Qabs_Qle_condition.
    change (inject_Z 5) with 5. split; lra. }
  apply Qabs_Qle_condition in Hb. change (inject_Z 5) with 5 in Hb.
  split; [lra | split; [lra |]]. apply toFixed_multiple.
Qed.

(** C9: the keyboard shortcut adds or subtracts 0.1 without clamping; from
    the offset 5 Shift+ArrowRight stores 5.1, and from -5 Shift+ArrowLeft
    stores -5.1, both outside [-5, 5]. *)
Theorem keyboard_nudge_leaves_range :
  let atMax := mkSyncOptions "loop-media" (Some 5) in
  let atMin := mkSyncOptions "loop-media" (Some (-5)) in
  (exists o, syncOffset (handleKeyDown shiftArrowRight atMax) = Some o
             /\ o == 5.1 /\ ~ o <= 5)
  /\ (exists o, syncOffset (handleKeyDown shiftArrowLeft atMin) = Some o
                /\ o == -5.1 /\ ~ -5 <= o).
Proof.
  split; eexists; (split; [reflexivity | split; [reflexivity |]]);
    intro H; vm_compute in H; apply H; reflexivity.
Qed.

(** ** Decoding with retries *)

Section AnalyzeAudioDataFacts.

Variable Features : Type.
Variable extractAudioFeatures : list Q -> option Features.
Variable sin : Q -> Q.
Variable fetchAndDecode : string -> nat -> option (list Q).
Variable url : string.

Let attempt : nat -> option (Analysis Features) :=
  tryAnalysis Features extractAudioFeatures fetchAndDecode url.


(** A successful attempt returns what was decoded. *)
Lemma tryAnalysis_decoded (retryCount : nat) (analysis : Analysis Features) :
  attempt retryCount = Some analysis ->
  fetchAndDecode url retryCount = Some (rawData _ analysis)
  /\ rawData _ analysis <> []
  /\ waveform _ analysis = normalizedData (rawData _ analysis)
  /\ features _ analysis = extractAudioFeatures (rawData _ analysis).
Proof.
  unfold attempt, tryAnalysis.
  destruct (fetchAndDecode url retryCount) as [[| x channel] |];
    try discriminate.
  intros H. injection H as <-. simpl. repeat split. discriminate.
Qed.





End AnalyzeAudioDataFacts.


(** ** Onset pattern matching *)

Lemma patternSimilarity_cases (videoOnsets audioOnsets : list Q) (i j : nat) :
  (intervalsAgree videoOnsets audioOnsets i j
   /\ patternSimilarity (pattern videoOnsets i) (pattern audioOnsets j) = 1)
  \/ (~ intervalsAgree videoOnsets audioOnsets i j
      /\ patternSimilarity (pattern videoOnsets i) (pattern audioOnsets j) = 0).
Proof.
  unfold patternSimilarity, intervalsAgree.
  set (d1 := Qabs (fst (pattern videoOnsets i) - fst (pattern audioOnsets j))).
  set (d2 := Qabs (snd (pattern videoOnsets i) - snd (pattern audioOnsets j))).
  destruct (ltb d1 0.1) eqn:E1; [destruct (ltb d2 0.1) eqn:E2 |]; cbn [andb].
  - left. apply ltb_lt in E1, E2. tauto.
  - right. apply ltb_ge in E2. split; [| reflexivity]. intros [_ H]. lra.
  - right. apply ltb_ge in E1. split; [| reflexivity]. intros [H _]. lra.
Qed.

(** What [matchAt] pushes. *)
Lemma matchAt_cases (videoOnsets audioOnsets : list Q) (i j : nat) :
  let o := nth i videoOnsets 0 - nth j audioOnsets 0 in
  (intervalsAgree videoOnsets audioOnsets i j /\ Qabs o <= 5
   /\ matchAt videoOnsets audioOnsets i j
      = [mkResult (toFixed 100 o) (0.7 + 0.3 * 1)])
  \/ (~ (intervalsAgree videoOnsets audioOnsets i j /\ Qabs o <= 5)
      /\ matchAt videoOnsets audioOnsets i j = []).
Proof.
  intros o. unfold matchAt. fold o.
  destruct (patternSimilarity_cases videoOnsets audioOnsets i j)
    as [[Hagree ->] | [Hnot ->]].
  - change (ltb 0 1) with true. cbn iota.
    destruct (Qle_bool (Qabs o) maxOffset) eqn:E.
    + left. apply Qle_bool_iff in E. unfold maxOffset in E. tauto.
    + right. split; [| reflexivity]. intros [_ H].
      apply Qle_bool_iff in H. unfold maxOffset in E. congruence.
  - change (ltb 0 0) with false. cbn iota. right. tauto.
Qed.

Lemma in_patternMatches (videoOnsets audioOnsets : list Q) (r : Result) :
  In r (patternMatches videoOnsets audioOnsets) <->
  exists i j,
    (i + 2 < length videoOnsets)%nat /\ (j + 2 < length audioOnsets)%nat
    /\ In r (matchAt videoOnsets audioOnsets i j).
Proof.
  unfold patternMatches. rewrite in_flat_map. split.
  - intros [i [Hi H]]. apply in_flat_map in H. destruct H as [j [Hj H]].
    apply in_seq in Hi, Hj. exists i, j. repeat split; [lia | lia | exact H].
  - intros [i [j [Hi [Hj H]]]]. exists i. split; [apply in_seq; lia |].
    apply in_flat_map. exists j. split; [apply in_seq; lia | exact H].
Qed.

Lemma matchOnsets_cases (videoOnsets audioOnsets : list Q) :
  videoOnsets <> [] -> audioOnsets <> [] ->
  (patternMatches videoOnsets audioOnsets = []
   /\ matchOnsets videoOnsets audioOnsets
      = firstOnsetAlignment videoOnsets audioOnsets)
  \/ (patternMatches videoOnsets audioOnsets <> []
      /\ matchOnsets videoOnsets audioOnsets
         = patternMatches videoOnsets audioOnsets).
Proof.
  intros Hv Ha. unfold matchOnsets.
  destruct videoOnsets as [| v0 vs]; [contradiction |].
  destruct audioOnsets as [| a0 audios]; [contradiction |].
  cbn [length Nat.eqb orb Nat.ltb Nat.leb andb].
  destruct (patternMatches (v0 :: vs) (a0 :: audios)) as [| r rs].
  - left. split; reflexivity.
  - right. split; [discriminate | reflexivity].
Qed.

Lemma firstOnsetAlignment_cases (videoOnsets audioOnsets : list Q) :
  let o := nth 0 videoOnsets 0 - nth 0 audioOnsets 0 in
  (Qabs o <= 5
   /\ firstOnsetAlignment videoOnsets audioOnsets
      = [mkResult (toFixed 100 o) 0.5])
  \/ (~ Qabs o <= 5 /\ firstOnsetAlignment videoOnsets audioOnsets = []).
Proof.
  intros o. unfold firstOnsetAlignment. fold o.
  destruct (Qle_bool (Qabs o) maxOffset) eqn:E.
  - left. apply Qle_bool_iff in E. unfold maxOffset in E. tauto.
  - right. split; [| reflexivity]. intros H.
    apply Qle_bool_iff in H. unfold maxOffset in E. congruence.
Qed.

Lemma matchOnsets_in_range (videoOnsets audioOnsets : list Q) :
  Forall (fun r => Qabs (offset r) <= 5) (matchOnsets videoOnsets audioOnsets).
Proof.
  assert (forall o, Qabs o <= 5 -> Qabs (toFixed 100 o) <= 5) as Hround.
  { intros o Ho. apply (toFixed_bounded 100 5); [lia | exact Ho]. }
  assert (Forall (fun r => Qabs (offset r) <= 5)
                 (patternMatches videoOnsets audioOnsets)) as Hpattern.
  { apply Forall_forall. intros r Hr. apply in_patternMatches in Hr.
    destruct Hr as [i [j [_ [_ Hr]]]].
    destruct (matchAt_cases videoOnsets audioOnsets i j)
      as [[_ [Ho E]] | [_ E]]; rewrite E in Hr; [| destruct Hr].
    destruct Hr as [<- | []]. cbn [offset]. now apply Hround. }
  destruct videoOnsets as [| v0 vs]; [constructor |].
  destruct audioOnsets as [| a0 audios]; [constructor |].
  destruct (matchOnsets_cases (v0 :: vs) (a0 :: audios))
    as [[_ ->] | [_ ->]]; try discriminate; [| exact Hpattern].
  destruct (firstOnsetAlignment_cases (v0 :: vs) (a0 :: audios))
    as [[Ho ->] | [_ ->]]; repeat constructor.
  cbn [offset]. now apply Hround.
Qed.

(** C8, as stated, fails: the triples of these two tracks match and their
    first onsets are 0.004 s apart, but the only candidate has offset 0. *)
Lemma onset_offset_is_rounded :
  intervalsAgree shiftedOnsets plainOnsets 0 0
  /\ nth 0 shiftedOnsets 0 - nth 0 plainOnsets 0 == 0.004
  /\ map offset (matchOnsets shiftedOnsets plainOnsets) = [0.00]
  /\ ~ exists r, In r (matchOnsets shiftedOnsets plainOnsets)
                 /\ offset r == nth 0 shiftedOnsets 0 - nth 0 plainOnsets 0.
Proof.
  split; [| split; [| split]].
  - split; vm_compute; reflexivity.
  - vm_compute. reflexivity.
  - vm_compute. reflexivity.
  - intros [r [Hr E]]. vm_compute in Hr. destruct Hr as [<- | []].
    vm_compute in E. discriminate.
Qed.

(** C8, amended: every pair of triples whose two intervals each differ by
    less than 0.1 s and whose first onsets are at most 5 s apart yields a
    candidate with confidence 1 and with the difference of the first onsets
    rounded to two decimals as offset; no candidate has an offset outside
    [-5, 5]; and when no pair of triples matches and both sequences are
    non-empty, the result is the single candidate of confidence 0.5 that
    aligns the first onsets, its offset rounded to two decimals, or nothing
    when these are more than 5 s apart. *)
Theorem onset_matching_rounds_offsets (videoOnsets audioOnsets : list Q) :
  (forall i j,
      (i + 2 < length videoOnsets)%nat -> (j + 2 < length audioOnsets)%nat ->
      intervalsAgree videoOnsets audioOnsets i j ->
      Qabs (nth i videoOnsets 0 - nth j audioOnsets 0) <= 5 ->
      exists r, In r (matchOnsets videoOnsets audioOnsets)
                /\ offset r
                   = toFixed 100 (nth i videoOnsets 0 - nth j audioOnsets 0)
                /\ correlation r == 1)
  /\ Forall (fun r => -5 <= offset r /\ offset r <= 5)
            (matchOnsets videoOnsets audioOnsets)
  /\ ((forall i j,
          (i + 2 < length videoOnsets)%nat ->
          (j + 2 < length audioOnsets)%nat ->
          ~ intervalsAgree videoOnsets audioOnsets i j) ->
      videoOnsets <> [] -> audioOnsets <> [] ->
      let o := nth 0 videoOnsets 0 - nth 0 audioOnsets 0 in
      matchOnsets videoOnsets audioOnsets
      = if Qle_bool (Qabs o) 5 then [mkResult (toFixed 100 o) 0.5] else []).
Proof.
  split; [| split].
  - intros i j Hi Hj Hagree Hrange.
    assert (In (mkResult
                  (toFixed 100 (nth i videoOnsets 0 - nth j audioOnsets 0))
                  (0.7 + 0.3 * 1))
               (patternMatches videoOnsets audioOnsets)) as Hin.
    { apply in_patternMatches. exists i, j. split; [exact Hi | split; [exact Hj |]].
      destruct (matchAt_cases videoOnsets audioOnsets i j)
        as [[_ [_ ->]] | [Hnot _]]; [now left | tauto]. }
    exists (mkResult (toFixed 100 (nth i videoOnsets 0 - nth j audioOnsets 0))
                     (0.7 + 0.3 * 1)).
    split; [| split; [reflexivity | cbn [correlation]; reflexivity]].
    destruct (matchOnsets_cases videoOnsets audioOnsets) as [[E _] | [_ ->]].
    + intros ->. simpl in Hi. lia.
    + intros ->. simpl in Hj. lia.
    + rewrite E in Hin. destruct Hin.
    + exact Hin.
  - eapply Forall_impl; [| apply matchOnsets_in_range].
    intros r Hr. apply Qabs_Qle_condition in Hr. exact Hr.
  - intros Hnone Hv Ha o.
    destruct (matchOnsets_cases videoOnsets audioOnsets Hv Ha)
      as [[_ ->] | [Hsome _]].
    + reflexivity.
    + exfalso. destruct (patternMatches videoOnsets audioOnsets) as [| r rs] eqn:E;
        [now apply Hsome |].
      assert (In r (patternMatches videoOnsets audioOnsets)) as Hr
        by (rewrite E; now left).
      apply in_patternMatches in Hr. destruct Hr as [i [j [Hi [Hj Hr]]]].
      destruct (matchAt_cases videoOnsets audioOnsets i j)
        as [[Hagree _] | [_ Eempty]].
      * exact (Hnone i j Hi Hj Hagree).
      * rewrite Eempty in Hr. destruct Hr.
Qed.

(** The theorem at work: the triples of [shiftedOnsets] and [plainOnsets]
    match; those of [farOnsets] and [plainOnsets] do not, and the first
    onsets are aligned instead. *)
Lemma onset_matching_rounds_offsets_witness :
  (exists r, In r (matchOnsets shiftedOnsets plainOnsets)
             /\ offset r = toFixed 100 (0.004 - 0)
             /\ correlation r == 1)
  /\ matchOnsets farOnsets plainOnsets = [mkResult (toFixed 100 (0.004 - 0)) 0.5].
Proof.
  split.
  - apply (proj1 (onset_matching_rounds_offsets shiftedOnsets plainOnsets) 0 0)%nat.
    + simpl. lia.
    + simpl. lia.
    + split; vm_compute; reflexivity.
    + vm_compute. discriminate.
  - apply (proj2 (proj2 (onset_matching_rounds_offsets farOnsets plainOnsets))).
    + intros i j Hi Hj. simpl in Hi, Hj.
      assert (i = 0%nat) as -> by lia. assert (j = 0%nat) as -> by lia.
      intros [_ H]. vm_compute in H. discriminate.
    + discriminate.
    + discriminate.
Defined.

(** ** Basic correlation *)

Lemma square_nonneg (q : Q) : 0 <= q * q.
Proof. nra. Qed.

Lemma dot_nil_r (xs : list Q) : dot xs [] = 0.
Proof. destruct xs; reflexivity. Qed.

Lemma dot_self (xs : list Q) : dot xs xs == sumsq xs.
Proof.
  induction xs as [| x xs IH]; cbn [dot sumsq]; [reflexivity | rewrite IH; reflexivity].
Qed.

Lemma sumsq_nonneg (xs : list Q) : 0 <= sumsq xs.
Proof.
  induction xs as [| x xs IH]; cbn [sumsq]; [lra | nra].
Qed.

Lemma sumsq_skipn (n : nat) (xs : list Q) : sumsq (skipn n xs) <= sumsq xs.
Proof.
  revert xs. induction n as [| n IH]; intros xs; [cbn [skipn]; lra |].
  destruct xs as [| x xs]; cbn [skipn sumsq]; [lra |].
  specialize (IH xs). nra.
Qed.

(** Twice the sum of products is at most the two sums of squares. *)
Lemma dot_le_sumsq (xs ys : list Q) : 2 * dot xs ys <= sumsq xs + sumsq ys.
Proof.
  revert ys. induction xs as [| x xs IH]; intros ys.
  - cbn [dot sumsq]. pose proof (sumsq_nonneg ys). lra.
  - destruct ys as [| y ys].
    + cbn [dot sumsq]. pose proof (sumsq_nonneg xs). nra.
    + cbn [dot sumsq]. specialize (IH ys).
      pose proof (square_nonneg (x - y)) as Hsq.
      assert ((x - y) * (x - y) == x * x + y * y - 2 * (x * y)) as E by ring.
      lra.
Qed.

Lemma skipn_cons_nth (n : nat) (xs : list Q) :
  (n < length xs)%nat -> skipn n xs = nth n xs 0 :: skipn (S n) xs.
Proof.
  revert xs. induction n as [| n IH]; intros [| x xs] Hn; simpl in *; try lia.
  - reflexivity.
  - apply IH. lia.
Qed.

(** The loop adds up the products of the overlapping parts of the two
    signals and counts them. *)
Lemma correlateFrom_dot (s1 s2 : list Q) (offsetSamples : Z) :
  forall (i : Z) (sum : Q) (count : Z),
    let overlap1 := skipn (Z.to_nat (- (i + offsetSamples))) s1 in
    let overlap2 := skipn (Z.to_nat (i + offsetSamples)) s2 in
    let final :=
      correlateFrom i s1 s2 (Z.of_nat (length s2)) offsetSamples (sum, count) in
    fst final == sum + dot overlap1 overlap2
    /\ snd final
       = (count + Z.of_nat (Nat.min (length overlap1) (length overlap2)))%Z.
Proof.
  induction s1 as [| x s1 IH]; intros i sum count.
  - cbn zeta. rewrite skipn_nil. cbn [correlateFrom fst snd dot length Nat.min].
    split; [ring | lia].
  - cbn zeta. cbn [correlateFrom].
    set (j := (i + offsetSamples)%Z).
    destruct (Z.leb_spec 0 j) as [Hj0 | Hj0]; cbn [andb].
    + replace (Z.to_nat (- j)) with 0%nat by lia. cbn [skipn].
      destruct (Z.ltb_spec j (Z.of_nat (length s2))) as [Hj | Hj].
      * specialize (IH (i + 1)%Z (sum + x * nth (Z.to_nat j) s2 0)
                       (count + 1)%Z).
        cbn zeta in IH. cbn [fst snd].
        replace (Z.to_nat (- (i + 1 + offsetSamples))) with 0%nat in IH by lia.
        replace (Z.to_nat (i + 1 + offsetSamples)) with (S (Z.to_nat j)) in IH
          by lia.
        change (skipn 0 s1) with s1 in IH. destruct IH as [IHsum IHcount].
        rewrite (skipn_cons_nth (Z.to_nat j) s2) by lia.
        cbn [dot length]. rewrite IHsum, IHcount. split; [ring | lia].
      * specialize (IH (i + 1)%Z sum count). cbn zeta in IH.
        replace (Z.to_nat (- (i + 1 + offsetSamples))) with 0%nat in IH by lia.
        change (skipn 0 s1) with s1 in IH. destruct IH as [IHsum IHcount].
        rewrite IHsum, IHcount.
        rewrite !skipn_all2 by lia. rewrite !dot_nil_r. cbn [length].
        split; [reflexivity | lia].
    + specialize (IH (i + 1)%Z sum count). cbn zeta in IH.
      destruct IH as [IHsum IHcount]. rewrite IHsum, IHcount.
      replace (Z.to_nat (- j)) with (S (Z.to_nat (- (i + 1 + offsetSamples))))
        by lia.
      replace (Z.to_nat (i + 1 + offsetSamples)) with (Z.to_nat j) by lia.
      cbn [skipn]. split; reflexivity.
Qed.

Lemma correlateAt_dot (s1 s2 : list Q) (offsetSamples : Z) :
  fst (correlateAt s1 s2 offsetSamples)
  == dot (skipn (Z.to_nat (- offsetSamples)) s1)
         (skipn (Z.to_nat offsetSamples) s2).
Proof.
  unfold correlateAt.
  destruct (correlateFrom_dot s1 s2 offsetSamples 0 0 0%Z) as [H _].
  cbn zeta in H. rewrite H. cbn [Z.add]. ring.
Qed.

(** On a signal and itself no lag has a larger sum of products than lag 0,
    where it is the sum of the squares. *)
Lemma correlateAt_self_le (s : list Q) (offsetSamples : Z) :
  fst (correlateAt s s offsetSamples) <= sumsq s.
Proof.
  rewrite correlateAt_dot.
  pose proof (dot_le_sumsq (skipn (Z.to_nat (- offsetSamples)) s)
                           (skipn (Z.to_nat offsetSamples) s)).
  pose proof (sumsq_skipn (Z.to_nat (- offsetSamples)) s).
  pose proof (sumsq_skipn (Z.to_nat offsetSamples) s).
  lra.
Qed.

Lemma correlateAt_self_zero (s : list Q) :
  fst (correlateAt s s 0) == sumsq s
  /\ snd (correlateAt s s 0) = Z.of_nat (length s).
Proof.
  unfold correlateAt.
  destruct (correlateFrom_dot s s 0 0 0 0%Z) as [Hsum Hcount].
  cbn zeta in Hsum, Hcount. cbn [Z.add Z.opp Z.to_nat skipn] in Hsum, Hcount.
  rewrite Hsum, Hcount, dot_self. split; [ring | lia].
Qed.

Lemma Forall2_map_self {A B : Type} (R : B -> A -> Prop) (f : A -> B)
      (l : list A) :
  Forall (fun x => R (f x) x) l -> Forall2 R (map f l) l.
Proof.
  induction 1; simpl; constructor; assumption.
Qed.

Lemma scannedOffsets_length : length scannedOffsets = 101%nat.
Proof. vm_compute. reflexivity. Qed.

Lemma findCorrelation_length (signal1 signal2 : list Q) :
  length (findCorrelation signal1 signal2) = 101%nat.
Proof.
  unfold findCorrelation. rewrite length_map. apply scannedOffsets_length.
Qed.

Lemma findCorrelation_entries (signal1 signal2 : list Q) :
  findCorrelation signal1 signal2
  = map (entryAt (window signal1) (window signal2)) scannedOffsets.
Proof. reflexivity. Qed.

Lemma entryAt_offset (s1 s2 : list Q) (offsetSamples : Z) :
  offset (entryAt s1 s2 offsetSamples)
  = toFixed 100 (inject_Z offsetSamples / inject_Z sampleRate).
Proof.
  unfold entryAt. destruct (correlateAt s1 s2 offsetSamples). reflexivity.
Qed.

(** The confidence times the number of overlapping samples is the sum of
    the products. *)
Lemma entryAt_unnormalised (s1 s2 : list Q) (offsetSamples : Z) :
  let count := snd (correlateAt s1 s2 offsetSamples) in
  correlation (entryAt s1 s2 offsetSamples) * inject_Z count
  == if (0 <? count)%Z then fst (correlateAt s1 s2 offsetSamples) else 0.
Proof.
  unfold entryAt. destruct (correlateAt s1 s2 offsetSamples) as [sum count].
  cbn [fst snd correlation].
  destruct (Z.ltb_spec 0 count) as [H | H]; [| ring].
  field. apply inject_Z_pos in H. lra.
Qed.


(** C5, as stated, fails: for the two clicks the confidence at the offsets
    0.2 and -0.2 is 1, the product of the two clicks over an overlap of one
    sample, and it is smaller at every offset within 0.1 s of 0. *)
Lemma identical_tracks_peak_away_from_zero :
  exists peak,
    In peak (findCorrelation twoClicks twoClicks)
    /\ offset peak == 0.2
    /\ forall r, In r (findCorrelation twoClicks twoClicks) ->
                 Qabs (offset r) <= 0.1 ->
                 correlation r < correlation peak.
Proof.
  set (results := findCorrelation twoClicks twoClicks).
  set (peak := nth 52 results (mkResult 0 0)).
  assert (Qeq_bool (offset peak) 0.2
          && forallb (fun r => negb (Qle_bool (Qabs (offset r)) 0.1)
                               || ltb (correlation r) (correlation peak))
                     results = true) as H by (vm_compute; reflexivity).
  apply andb_true_iff in H. destruct H as [Hoffset Hall].
  exists peak. split; [| split].
  - apply nth_In. unfold results. rewrite findCorrelation_length. lia.
  - now apply Qeq_bool_iff.
  - intros r Hr Hnear. rewrite forallb_forall in Hall.
    specialize (Hall r Hr). apply orb_true_iff in Hall.
    destruct Hall as [Hfar | Hless]; [| now apply ltb_lt].
    apply negb_true_iff in Hfar. apply Qle_bool_iff in Hnear. congruence.
Qed.

(** C5, amended: on the pair (A, A) the entry for offset 0 is the 51st of
    the 101 entries; its confidence times the number of samples in the
    window is the sum of their squares, and for no scanned lag is the
    confidence times the number of overlapping samples larger than that.
    The confidence itself (divided by the overlap) may be larger away from
    0. *)
Theorem identical_tracks_peak_before_normalising (A : list Q) :
  let s := window A in
  exists atZero,
    nth_error (findCorrelation A A) 50 = Some atZero
    /\ offset atZero == 0
    /\ correlation atZero * inject_Z (Z.of_nat (length s)) == sumsq s
    /\ Forall2 (fun r lag =>
                  correlation r * inject_Z (snd (correlateAt s s lag))
                  <= correlation atZero * inject_Z (Z.of_nat (length s)))
               (findCorrelation A A) scannedOffsets.
Proof.
  intros s. exists (entryAt s s 0).
  destruct (correlateAt_self_zero s) as [Hsum Hcount].
  assert (correlation (entryAt s s 0) * inject_Z (Z.of_nat (length s))
          == sumsq s) as Hzero.
  { pose proof (entryAt_unnormalised s s 0) as H. cbn zeta in H.
    rewrite Hcount in H. rewrite H.
    destruct (Z.ltb_spec 0 (Z.of_nat (length s))) as [Hlen | Hlen];
      [exact Hsum |].
    destruct s; [reflexivity | simpl in Hlen; lia]. }
  split; [| split; [| split]].
  - rewrite findCorrelation_entries. fold s.
    rewrite nth_error_map.
    replace (nth_error scannedOffsets 50) with (Some 0%Z)
      by (vm_compute; reflexivity).
    reflexivity.
  - rewrite entryAt_offset. vm_compute. reflexivity.
  - exact Hzero.
  - rewrite findCorrelation_entries. fold s.
    apply Forall2_map_self, Forall_forall. intros lag _.
    rewrite Hzero.
    pose proof (entryAt_unnormalised s s lag) as H. cbn zeta in H. rewrite H.
    destruct (0 <? snd (correlateAt s s lag))%Z;
      [apply correlateAt_self_le | apply sumsq_nonneg].
Qed.



(** * Further properties of the code *)

(** ** The suggestion list *)

Lemma newSet_InA (x : Q) (arr : list Q) :
  InA Qeq x (newSet arr) <-> InA Qeq x arr.
Proof.
  unfold newSet.
  assert (forall s, InA Qeq x (fold_left setAdd arr s)
                    <-> InA Qeq x s \/ InA Qeq x arr) as H.
  { induction arr as [| y arr IH]; intros s; simpl.
    - rewrite InA_nil. tauto.
    - rewrite IH, InA_cons. unfold setAdd.
      destruct (includes y s) eqn:E.
      + apply includes_InA in E. split; [tauto |].
        intros [H | [H | H]]; try tauto. left.
        eapply InA_eqA; [exact Q_Setoid | symmetry; exact H | exact E].
      + rewrite InA_app_iff, InA_cons, InA_nil. tauto. }
  rewrite H, InA_nil. tauto.
Qed.

Lemma inRange_proper (x y : Q) : x == y -> inRange x = inRange y.
Proof. intros E. unfold inRange. now rewrite E. Qed.

Lemma filter_inRange_InA (x : Q) (l : list Q) :
  InA Qeq x (filter inRange l) <-> InA Qeq x l /\ inRange x = true.
Proof.
  rewrite !InA_alt. split.
  - intros [y [E Hy]]. apply filter_In in Hy. destruct Hy as [Hy Hr].
    split; [now exists y | now rewrite (inRange_proper x y E)].
  - intros [[y [E Hy]] Hr]. exists y. split; [exact E |].
    apply filter_In. split; [exact Hy | now rewrite <- (inRange_proper x y E)].
Qed.

Lemma Permutation_InA (x : Q) (l l' : list Q) :
  Permutation l l' -> InA Qeq x l -> InA Qeq x l'.
Proof.
  intros P. rewrite !InA_alt. intros [y [E Hy]]. exists y.
  split; [exact E | eapply Permutation_in; eassumption].
Qed.

Lemma addZero_InA (x : Q) (l : list Q) :
  InA Qeq x (addZero l) <-> InA Qeq x l \/ x == 0.
Proof.
  unfold addZero. destruct (includes 0 l) eqn:E.
  - apply includes_InA in E. split; [tauto |].
    intros [H | H]; [exact H |].
    eapply InA_eqA; [exact Q_Setoid | symmetry; exact H | exact E].
  - rewrite InA_app_iff, InA_cons, InA_nil. tauto.
Qed.

Lemma addVariance_InA (x : Q) (l : list Q) :
  InA Qeq x (addVariance l) <->
  InA Qeq x l
  \/ exists bestMatch rest,
      l = bestMatch :: rest
      /\ (x == bestMatch + 0.05 \/ x == bestMatch - 0.05).
Proof.
  unfold addVariance. destruct l as [| bestMatch rest].
  - split; [tauto |]. intros [H | [b [r [H _]]]]; [exact H | discriminate].
  - rewrite InA_app_iff, !InA_cons, InA_nil. split.
    + intros [H | [H | [H | []]]]; [left; exact H | |];
        right; exists bestMatch, rest; tauto.
    + intros [H | [b [r [E H]]]]; [left; exact H |].
      injection E as <- <-. tauto.
Qed.

Lemma uniqueSuggestions_InA (enhancedResults : list Candidate) (o : Q) :
  InA Qeq o (uniqueSuggestions enhancedResults) <->
  inRange o = true
  /\ InA Qeq o (addZero (addVariance (topSuggestions enhancedResults))).
Proof.
  pose proof (uniqueSuggestions_perm enhancedResults) as P.
  split.
  - intros H. apply (Permutation_InA _ _ _ P) in H.
    apply filter_inRange_InA in H. rewrite newSet_InA in H. tauto.
  - intros [Hr H]. apply (Permutation_InA _ _ _ (Permutation_sym P)).
    apply filter_inRange_InA. rewrite newSet_InA. tauto.
Qed.

Lemma uniqueSuggestions_sorted (enhancedResults : list Candidate) :
  StronglySorted absOrder (uniqueSuggestions enhancedResults).
Proof.
  apply Sorted_StronglySorted.
  - intros a b c. unfold absOrder. intros; lra.
  - apply Sorted_weaken with (R := fun a b => byAbs a b <= 0).
    + unfold byAbs, absOrder. intros; lra.
    + apply sort_sorted. unfold byAbs. intros a b.
      destruct (Qlt_le_dec (Qabs a) (Qabs b)); [left | right]; lra.
Qed.

(** X1: the first suggestion is always 0: the list always holds 0 and is
    sorted by absolute value, so the offset that [analyzeSyncPoints] selects
    and hands to [onOffsetChange] is 0 whatever the candidates are. *)
Theorem analysis_always_applies_zero (enhancedResults : list Candidate) :
  exists first,
    selectedSuggestion (finishAnalysis enhancedResults) = Some first
    /\ offsetChanges (finishAnalysis enhancedResults) = [first]
    /\ hd_error (syncSuggestions (finishAnalysis enhancedResults)) = Some first
    /\ first == 0.
Proof.
  assert (InA Qeq 0 (uniqueSuggestions enhancedResults)) as Hzero.
  { apply uniqueSuggestions_InA. split; [reflexivity |].
    apply addZero_InA. right. reflexivity. }
  pose proof (uniqueSuggestions_sorted enhancedResults) as Hsorted.
  unfold finishAnalysis.
  destruct (uniqueSuggestions enhancedResults) as [| first rest];
    [inversion Hzero |].
  exists first. cbn. repeat split.
  inversion Hsorted as [| ? ? _ Hfirst]; subst.
  inversion Hzero as [? ? E | ? ? Hin]; subst; [symmetry; exact E |].
  rewrite InA_alt in Hin. destruct Hin as [y [E Hy]].
  rewrite Forall_forall in Hfirst. specialize (Hfirst y Hy).
  unfold absOrder in Hfirst. rewrite <- E in Hfirst.
  change (Qabs 0) with 0 in Hfirst.
  apply Qabs_Qle_condition in Hfirst. lra.
Qed.


(** X2: the suggestions are sorted by ascending absolute value, and they are
    exactly the values of [-5, 5] among 0, the offsets of the three
    best-scored candidates and the best offset plus and minus 0.05. *)
Theorem suggestions_sorted_and_characterised
        (enhancedResults : list Candidate) :
  StronglySorted absOrder (uniqueSuggestions enhancedResults)
  /\ forall o,
      InA Qeq o (uniqueSuggestions enhancedResults) <->
      (-5 <= o /\ o <= 5)
      /\ (o == 0
          \/ InA Qeq o (topSuggestions enhancedResults)
          \/ exists bestMatch rest,
              topSuggestions enhancedResults = bestMatch :: rest
              /\ (o == bestMatch + 0.05 \/ o == bestMatch - 0.05)).
Proof.
  split; [apply uniqueSuggestions_sorted |].
  intros o. rewrite uniqueSuggestions_InA, inRange_spec, addZero_InA,
    addVariance_InA. tauto.
Qed.

Lemma newSet_length (arr : list Q) : (length (newSet arr) <= length arr)%nat.
Proof.
  unfold newSet.
  assert (forall s, (length (fold_left setAdd arr s)
                     <= length s + length arr)%nat) as H.
  { induction arr as [| x arr IH]; intros s; simpl; [lia |].
    specialize (IH (setAdd s x)). unfold setAdd in *.
    destruct (includes x s); [lia |].
    rewrite length_app in IH. simpl in IH. lia. }
  apply (H []).
Qed.

(** X3: there are at least one and at most six suggestions. *)
Theorem suggestions_between_one_and_six (enhancedResults : list Candidate) :
  (1 <= length (uniqueSuggestions enhancedResults) <= 6)%nat.
Proof.
  split.
  - assert (InA Qeq 0 (uniqueSuggestions enhancedResults)) as Hzero.
    { apply uniqueSuggestions_InA. split; [reflexivity |].
      apply addZero_InA. right. reflexivity. }
    destruct (uniqueSuggestions enhancedResults); [inversion Hzero | simpl; lia].
  - rewrite (Permutation_length (uniqueSuggestions_perm enhancedResults)).
    eapply Nat.le_trans; [apply filter_length_le |].
    eapply Nat.le_trans; [apply newSet_length |].
    assert (length (topSuggestions enhancedResults) <= 3)%nat as Htop.
    { unfold topSuggestions. rewrite length_map, length_firstn. lia. }
    unfold addZero, addVariance.
    destruct (topSuggestions enhancedResults) as [| bestMatch rest];
      match goal with
      | |- context [includes 0 ?l] => destruct (includes 0 l)
      end; rewrite ?length_app; simpl in *; lia.
Qed.

(** X4: clicking any suggestion of the list hands a multiple of 0.1 in [-5, 5]
    to [onOffsetChange]. *)
Theorem applied_suggestions_are_tenths (enhancedResults : list Candidate) :
  Forall (fun o =>
            -5 <= applySuggestion o /\ applySuggestion o <= 5
            /\ exists m : Z, applySuggestion o == inject_Z m / inject_Z 10)
         (uniqueSuggestions enhancedResults).
Proof.
  apply Forall_forall. intros o Ho.
  assert (InA Qeq o (uniqueSuggestions enhancedResults)) as Hin
    by (apply InA_alt; exists o; split; [reflexivity | exact Ho]).
  apply uniqueSuggestions_InA in Hin. destruct Hin as [Hr _].
  apply inRange_spec in Hr. now apply applySuggestion_rounds.
Qed.


(** ** Basic correlation, further *)

Lemma correlateAt_count (s1 s2 : list Q) (offsetSamples : Z) :
  snd (correlateAt s1 s2 offsetSamples)
  = Z.of_nat (Nat.min (length (skipn (Z.to_nat (- offsetSamples)) s1))
                      (length (skipn (Z.to_nat offsetSamples) s2))).
Proof.
  unfold correlateAt.
  destruct (correlateFrom_dot s1 s2 offsetSamples 0 0 0%Z) as [_ H].
  cbn zeta in H. rewrite H. cbn [Z.add]. reflexivity.
Qed.

Lemma dot_comm (xs ys : list Q) : dot xs ys == dot ys xs.
Proof.
  revert ys. induction xs as [| x xs IH]; intros [| y ys]; cbn [dot];
    try reflexivity.
  rewrite IH. ring.
Qed.

Lemma toFixed_comp (scale : Z) (x y : Q) :
  x == y -> toFixed scale x = toFixed scale y.
Proof.
  intros E. unfold toFixed.
  assert (Qfloor (Qabs x * inject_Z scale + (1 # 2))
          = Qfloor (Qabs y * inject_Z scale + (1 # 2))) as ->
    by (apply Qfloor_comp; rewrite E; reflexivity).
  now rewrite E.
Qed.

Lemma toFixed_opp (scale : Z) (x : Q) :
  toFixed scale (- x) == - toFixed scale x.
Proof.
  unfold toFixed.
  assert (Qfloor (Qabs (- x) * inject_Z scale + (1 # 2))
          = Qfloor (Qabs x * inject_Z scale + (1 # 2))) as ->
    by (apply Qfloor_comp; rewrite Qabs_opp; reflexivity).
  set (n := Qfloor (Qabs x * inject_Z scale + (1 # 2))).
  destruct (Qle_bool 0 (- x)) eqn:E1, (Qle_bool 0 x) eqn:E2;
    try (apply Qle_bool_iff in E1); try (apply Qle_bool_iff in E2).
  - assert (x == 0) as Hx by lra.
    assert (n = 0%Z) as ->.
    { unfold n. rewrite Hx. reflexivity. }
    unfold Qdiv. change (inject_Z 0) with 0. ring.
  - ring.
  - reflexivity.
  - exfalso. destruct (Qlt_le_dec x 0) as [H | H].
    + assert (0 <= - x) as H' by lra. apply Qle_bool_iff in H'. congruence.
    + apply Qle_bool_iff in H. congruence.
Qed.

(** X5: a lag at least as long as the signal it shifts has no overlap, and its
    confidence is reported as 0. *)
Theorem no_overlap_no_confidence (signal1 signal2 : list Q) :
  Forall2 (fun r lag =>
             (Z.of_nat (length (window signal2)) <= lag
              \/ lag <= - Z.of_nat (length (window signal1)))%Z ->
             correlation r = 0)
          (findCorrelation signal1 signal2) scannedOffsets.
Proof.
  rewrite findCorrelation_entries. apply Forall2_map_self, Forall_forall.
  intros lag _ Hlag.
  pose proof (correlateAt_count (window signal1) (window signal2) lag) as Hc.
  unfold entryAt.
  destruct (correlateAt (window signal1) (window signal2) lag) as [sum count].
  cbn [snd] in Hc. cbn [correlation].
  assert (count = 0%Z) as ->.
  { rewrite Hc, !length_skipn. lia. }
  reflexivity.
Qed.

(** X6: exchanging the two signals mirrors the result: the entry for a lag
    carries the confidence that the entry for the opposite lag had, and the
    opposite offset. *)
Theorem exchanging_signals_mirrors_offsets (signal1 signal2 : list Q) :
  Forall2 (fun r mirrored =>
             offset r == - offset mirrored
             /\ correlation r == correlation mirrored)
          (findCorrelation signal1 signal2)
          (rev (findCorrelation signal2 signal1)).
Proof.
  rewrite !findCorrelation_entries, <- map_rev.
  replace (rev scannedOffsets) with (map Z.opp scannedOffsets)
    by (vm_compute; reflexivity).
  rewrite map_map.
  set (s1 := window signal1). set (s2 := window signal2).
  assert (forall (l : list Z) (f g : Z -> Result) (R : Result -> Result -> Prop),
             (forall k, R (f k) (g k)) -> Forall2 R (map f l) (map g l)) as Hmap.
  { induction l; intros; simpl; constructor; auto. }
  apply Hmap. intros lag. split.
  - rewrite !entryAt_offset, inject_Z_opp.
    rewrite (toFixed_comp 100 (- inject_Z lag / inject_Z sampleRate)
                          (- (inject_Z lag / inject_Z sampleRate)))
      by (unfold Qdiv; ring).
    rewrite toFixed_opp. ring.
  - pose proof (correlateAt_dot s1 s2 lag) as Hsum.
    pose proof (correlateAt_dot s2 s1 (- lag)) as Hsum'.
    pose proof (correlateAt_count s1 s2 lag) as Hcount.
    pose proof (correlateAt_count s2 s1 (- lag)) as Hcount'.
    rewrite Z.opp_involutive in Hsum', Hcount'.
    unfold entryAt.
    destruct (correlateAt s1 s2 lag) as [sum count].
    destruct (correlateAt s2 s1 (- lag)) as [sum' count'].
    cbn [fst snd correlation] in *.
    assert (count' = count) as -> by (rewrite Hcount, Hcount'; lia).
    assert (sum' == sum) as Es by (rewrite Hsum, Hsum'; apply dot_comm).
    destruct (0 <? count)%Z; [rewrite Es |]; reflexivity.
Qed.


(** ** Feature extraction *)

Lemma slice_length {A : Type} (arr : list A) (start finish : Z) :
  (0 <= start <= finish)%Z -> (finish <= Z.of_nat (length arr))%Z ->
  length (slice arr start finish) = Z.to_nat (finish - start).
Proof.
  intros Hstart Hfinish. unfold slice.
  destruct (Z.ltb_spec start 0); [lia |].
  destruct (Z.ltb_spec finish 0); [lia |].
  rewrite length_firstn, length_skipn. lia.
Qed.

Lemma slice_from_zero_length {A : Type} (arr : list A) (finish : Z) :
  (0 <= finish)%Z ->
  Z.of_nat (length (slice arr 0 finish))
  = Z.min finish (Z.of_nat (length arr)).
Proof.
  intros Hfinish. unfold slice. cbn [Z.ltb Z.compare].
  destruct (Z.ltb_spec finish 0); [lia |].
  rewrite length_firstn, length_skipn. lia.
Qed.

Lemma trunc_nonneg (x : Q) : 0 <= x -> (0 <= trunc x)%Z /\ inject_Z (trunc x) <= x.
Proof.
  intros Hx. unfold trunc.
  apply Qle_bool_iff in Hx. rewrite Hx. apply Qle_bool_iff in Hx.
  split; [apply (Qfloor_resp_le 0 x Hx) | apply Qfloor_le].
Qed.

(** The samples that are analysed span at most 30 seconds. *)
Lemma processData_length (audioData : list Q) (sampleRate : Q) :
  0 < sampleRate ->
  inject_Z (Z.of_nat (length (processData audioData sampleRate)))
  <= sampleRate * 30.
Proof.
  intros Hrate. unfold processData.
  set (bound := min (inject_Z (Z.of_nat (length audioData)))
                    (sampleRate * inject_Z maxDuration)).
  assert (0 <= bound /\ bound <= sampleRate * 30) as [Hb0 Hb].
  { unfold bound, JS.min, maxDuration. change (inject_Z 30) with 30.
    assert (0 <= inject_Z (Z.of_nat (length audioData))) as Hlen
      by (apply inject_Z_nonneg; lia).
    destruct (Qle_bool _ _) eqn:E; [apply Qle_bool_iff in E |]; split; lra. }
  destruct (trunc_nonneg bound Hb0) as [Ht0 Ht].
  rewrite slice_from_zero_length by exact Ht0.
  eapply Qle_trans; [| exact Hb]. eapply Qle_trans; [| exact Ht].
  rewrite <- Zle_Qle. lia.
Qed.

Lemma frame_in_data (data : list Q) (i : nat) :
  (Z.of_nat i < numFrames data)%Z ->
  (Z.of_nat i * hopSize + frameSize <= Z.of_nat (length data))%Z.
Proof.
  unfold numFrames, hopSize, frameSize. intros H.
  Z.div_mod_to_equations. lia.
Qed.

(** X7: every frame handed to Meyda holds [frameSize] samples: the incomplete
    frame at the end of the data is never analysed. *)
Theorem frames_are_complete (audioData : list Q) (sampleRate : Q) :
  let data := processData audioData sampleRate in
  Forall (fun i => Z.of_nat (length (frameAt data i)) = frameSize)
         (seq 0 (Z.to_nat (numFrames data))).
Proof.
  intros data. apply Forall_forall. intros i Hi. apply in_seq in Hi.
  assert (Z.of_nat i < numFrames data)%Z as Hframe by lia.
  apply frame_in_data in Hframe. unfold frameAt.
  rewrite slice_length; unfold hopSize, frameSize in *; lia.
Qed.

Lemma StronglySorted_snoc {A : Type} (R : A -> A -> Prop) (l : list A) (y : A) :
  StronglySorted R l -> Forall (fun x => R x y) l ->
  StronglySorted R (l ++ [y]).
Proof.
  induction 1 as [| x l Hl IH Hx]; intros Hy; simpl.
  - repeat constructor.
  - inversion Hy as [| ? ? Hxy Hrest]; subst. constructor.
    + now apply IH.
    + apply Forall_app. split; [exact Hx | repeat constructor; exact Hxy].
Qed.

Lemma fold_seq_invariant {S : Type} (step : S -> nat -> S)
      (Inv : nat -> S -> Prop) (limit : nat) :
  (forall n s, (n < limit)%nat -> Inv n s -> Inv (Datatypes.S n) (step s n)) ->
  forall len start s,
    (start + len <= limit)%nat -> Inv start s ->
    Inv (start + len)%nat (fold_left step (seq start len) s).
Proof.
  intros Hstep. induction len as [| len IH]; intros start s Hlimit Hinv.
  - now rewrite Nat.add_0_r.
  - cbn [seq fold_left]. rewrite <- Nat.add_succ_comm.
    apply IH; [lia |]. apply Hstep; [lia | exact Hinv].
Qed.

Section ExtractAudioFeaturesFacts.

Variable meydaExtract : list Q -> Meyda.Outcome.
Variable data : list Q.
Variable sampleRate : Q.
Hypothesis sampleRate_positive : 0 < sampleRate.

Lemma onset_times_increase (j n : nat) :
  (j < n)%nat ->
  inject_Z (Z.of_nat j * hopSize) / sampleRate
  < inject_Z (Z.of_nat n * hopSize) / sampleRate.
Proof.
  intros H. apply Qmult_lt_compat_r; [now apply Qinv_lt_0_compat |].
  rewrite <- Zlt_Qlt. unfold hopSize. lia.
Qed.

Lemma extractFrame_keeps (n : nat) (state : FeatureSet * Q) :
  extractedSoFar sampleRate n state ->
  extractedSoFar sampleRate (S n) (extractFrame meydaExtract data sampleRate state n).
Proof.
  destruct state as [arrays lastRMS]. unfold extractedSoFar. cbn [fst].
  intros [Hsame [Hrms [Honsets [Hmfccs [Htimes [Hsorted Hloud]]]]]].
  assert (Forall (fun t => exists j, (0 < j < S n)%nat
                                     /\ t = inject_Z (Z.of_nat j * hopSize)
                                            / sampleRate)
                 (onsets arrays)) as Htimes'.
  { eapply Forall_impl; [| exact Htimes]. intros t [j [Hj E]].
    exists j. split; [lia | exact E]. }
  unfold extractFrame.
  destruct (meydaExtract (frameAt data n)) as [| | features].
  1, 2: cbn [fst]; repeat split; try assumption; lia.
  cbn [fst spectralCentroids rms onsets mfccs].
  set (currentRMS := orZero (Meyda.rms features)).
  rewrite !length_app. cbn [length].
  split; [lia | split; [lia |]].
  assert (3 * length (match Meyda.mfcc features with
                      | Some coefficients =>
                          if (n mod 3 =? 0)%nat
                          then mfccs arrays ++ [coefficients]
                          else mfccs arrays
                      | None => mfccs arrays
                      end) <= S n + 2)%nat as Hmfccs'.
  { destruct (Meyda.mfcc features); [| lia].
    destruct (Nat.eqb_spec (n mod 3) 0) as [Hmod | Hmod]; [| lia].
    rewrite length_app. cbn [length].
    assert (3 * length (mfccs arrays) <= n)%nat.
    { pose proof (Nat.div_mod_eq n 3) as Hdiv. rewrite Hmod in Hdiv.
      pose proof (Nat.div_mod_eq (n + 2) 3) as Hdiv'.
      pose proof (Nat.mod_upper_bound (n + 2) 3).
      assert ((n + 2) mod 3 = 2)%nat as Hmod'.
      { replace (n + 2)%nat with (2 + (n / 3) * 3)%nat by lia.
        now rewrite Nat.Div0.mod_add. }
      lia. }
    lia. }
  destruct ((0 <? n)%nat && ltb 0.1 currentRMS
            && ltb (1.5 * lastRMS) currentRMS) eqn:E.
  - apply andb_true_iff in E. destruct E as [E _].
    apply andb_true_iff in E. destruct E as [Hn Hthreshold].
    apply Nat.ltb_lt in Hn. apply ltb_lt in Hthreshold.
    rewrite length_app. cbn [length].
    split; [lia | split; [exact Hmfccs' | split; [| split]]].
    + apply Forall_app. split; [exact Htimes' |].
      repeat constructor. exists n. split; [lia | reflexivity].
    + apply StronglySorted_snoc; [exact Hsorted |].
      eapply Forall_impl; [| exact Htimes]. intros t [j [Hj ->]].
      apply onset_times_increase. lia.
    + right. apply Exists_app. right. now constructor.
  - split; [lia | split; [exact Hmfccs' | split; [exact Htimes' | split]]].
    + exact Hsorted.
    + destruct Hloud as [Hnone | Hloud]; [now left | right].
      apply Exists_app. now left.
Qed.

Lemma extractAudioFeatures_invariant :
  extractedSoFar sampleRate (Z.to_nat (numFrames data))
                 (fold_left (extractFrame meydaExtract data sampleRate)
                            (seq 0 (Z.to_nat (numFrames data)))
                            (mkFeatureSet [] [] [] [], 0)).
Proof.
  apply (fold_seq_invariant
           (extractFrame meydaExtract data sampleRate)
           (extractedSoFar sampleRate)
           (Z.to_nat (numFrames data))
           (fun n s _ => extractFrame_keeps n s)
           (Z.to_nat (numFrames data)) 0%nat); [lia |].
  unfold extractedSoFar. cbn. repeat split; try lia; now constructor.
Qed.

End ExtractAudioFeaturesFacts.


(** X8: the onsets are strictly increasing timestamps between 0 and 30 seconds,
    whatever Meyda reports, when the sample rate is positive. *)
Theorem onsets_increase_within_thirty_seconds
        (meydaExtract : list Q -> Meyda.Outcome)
        (audioData : list Q) (sampleRate : Q) :
  0 < sampleRate ->
  let found := onsets (extractAudioFeatures meydaExtract audioData sampleRate) in
  StronglySorted Qlt found /\ Forall (fun t => 0 < t /\ t < 30) found.
Proof.
  intros Hrate found. unfold found, extractAudioFeatures.
  set (data := processData audioData sampleRate).
  destruct (extractAudioFeatures_invariant meydaExtract data sampleRate Hrate)
    as [_ [_ [_ [_ [Htimes [Hsorted _]]]]]].
  split; [exact Hsorted |].
  eapply Forall_impl; [| exact Htimes]. intros t [j [Hj ->]].
  assert (Z.of_nat j < numFrames data)%Z as Hframe by lia.
  apply frame_in_data in Hframe.
  pose proof (processData_length audioData sampleRate Hrate) as Hlen.
  fold data in Hlen.
  assert (0 < inject_Z (Z.of_nat j * hopSize)) as Hpos
    by (apply inject_Z_pos; unfold hopSize; lia).
  assert (inject_Z (Z.of_nat j * hopSize) < inject_Z (Z.of_nat (length data)))
    as Hbelow by (rewrite <- Zlt_Qlt; unfold frameSize in Hframe; lia).
  split.
  - apply Qlt_shift_div_l; [exact Hrate | lra].
  - apply Qlt_shift_div_r; [exact Hrate | lra].
Qed.

(** The theorem at work on the four blocks at 44100 Hz: the two tones are
    found as onsets. *)
Lemma onsets_increase_within_thirty_seconds_witness :
  let found := onsets (extractAudioFeatures firstSampleMeyda fourBlocks 44100) in
  StronglySorted Qlt found /\ Forall (fun t => 0 < t /\ t < 30) found.
Proof.
  apply (onsets_increase_within_thirty_seconds firstSampleMeyda fourBlocks 44100).
  reflexivity.
Defined.

Lemma extractFrame_sizes (meydaExtract : list Q -> Meyda.Outcome)
      (data : list Q) (sampleRate : Q) (n : nat) (state : FeatureSet * Q) :
  sizesSoFar n state ->
  sizesSoFar (S n) (extractFrame meydaExtract data sampleRate state n).
Proof.
  destruct state as [arrays lastRMS]. unfold sizesSoFar. cbn [fst].
  intros [Hsame [Hrms [Honsets Hmfccs]]]. unfold extractFrame.
  destruct (meydaExtract (frameAt data n)) as [| | features];
    cbn [fst]; [repeat split; lia | repeat split; lia |].
  cbn [spectralCentroids rms onsets mfccs]. rewrite !length_app. cbn [length].
  repeat split; try lia.
  - destruct (_ && _ && _); rewrite ?length_app; cbn [length]; lia.
  - destruct (Meyda.mfcc features); [| lia].
    destruct (Nat.eqb_spec (n mod 3) 0) as [Hmod | Hmod]; [| lia].
    rewrite length_app. cbn [length].
    pose proof (Nat.div_mod_eq n 3) as Hdiv. rewrite Hmod in Hdiv.
    assert (3 * length (mfccs arrays) <> n + 1
            /\ 3 * length (mfccs arrays) <> n + 2)%nat by lia.
    lia.
Qed.

(** X9: the arrays of features have matching sizes: one centroid per energy
    value, at most one of each per frame, at most one onset per energy
    value and at most one MFCC vector for every three frames. *)
Theorem feature_arrays_have_matching_sizes
        (meydaExtract : list Q -> Meyda.Outcome)
        (audioData : list Q) (sampleRate : Q) :
  let found := extractAudioFeatures meydaExtract audioData sampleRate in
  let frames := Z.to_nat (numFrames (processData audioData sampleRate)) in
  length (spectralCentroids found) = length (rms found)
  /\ (length (rms found) <= frames)%nat
  /\ (length (onsets found) <= length (rms found))%nat
  /\ (3 * length (mfccs found) <= frames + 2)%nat.
Proof.
  intros found frames. unfold found, frames, extractAudioFeatures.
  set (data := processData audioData sampleRate).
  apply (fold_seq_invariant
           (extractFrame meydaExtract data sampleRate) sizesSoFar
           (Z.to_nat (numFrames data))
           (fun n s _ => extractFrame_sizes meydaExtract data sampleRate n s)
           (Z.to_nat (numFrames data)) 0%nat); [lia |].
  unfold sizesSoFar. cbn. lia.
Qed.


Lemma slice_length_le {A : Type} (arr : list A) (start finish : Z) :
  (length (slice arr start finish) <= length arr)%nat.
Proof.
  unfold slice. rewrite length_firstn, length_skipn. lia.
Qed.

(** X10: a track of fewer than 2048 samples has no frame: all four arrays are
    empty, and neither the MFCC nor the onset method runs on it, whatever
    the other track is: the candidates are those of the basic correlation
    alone. *)
Theorem short_track_has_no_features
        (meydaExtract : list Q -> Meyda.Outcome)
        (audioData : list Q) (sampleRate : Q) :
  (length audioData < 2048)%nat ->
  let found := extractAudioFeatures meydaExtract audioData sampleRate in
  found = mkFeatureSet [] [] [] []
  /\ forall (sqrt : Q -> Q) (other : option FeatureSet)
            (videoData otherData : list Q),
      findEnhancedCorrelation sqrt (Some found) other videoData otherData
      = map (tagged "basic-correlation") (findCorrelation videoData otherData)
      /\ findEnhancedCorrelation sqrt other (Some found) videoData otherData
         = map (tagged "basic-correlation")
               (findCorrelation videoData otherData).
Proof.
  intros Hshort found.
  assert (Hempty : found = mkFeatureSet [] [] [] []).
  { unfold found, extractAudioFeatures.
    set (data := processData audioData sampleRate).
    assert (length data <= length audioData)%nat as Hdata
      by apply slice_length_le.
    assert (numFrames data <= 0)%Z as Hframes.
    { unfold numFrames, frameSize, hopSize. Z.div_mod_to_equations. lia. }
    replace (Z.to_nat (numFrames data)) with 0%nat by lia. reflexivity. }
  split; [exact Hempty |]. rewrite Hempty.
  intros sqrt other videoData otherData.
  unfold findEnhancedCorrelation, present.
  cbn [mfccs onsets length Nat.ltb Nat.leb andb].
  rewrite !andb_false_r. split; reflexivity.
Qed.

Lemma short_track_has_no_features_witness :
  extractAudioFeatures firstSampleMeyda [1; 1; 1] 44100
  = mkFeatureSet [] [] [] [].
Proof.
  apply (short_track_has_no_features firstSampleMeyda [1; 1; 1] 44100).
  simpl. lia.
Defined.




(** ** MFCC correlation and the collection of the candidates *)

Lemma mfccEntryAt_offset (sqrt : Q -> Q) (vMFCCs aMFCCs : list (list Q))
      (offsetFrames : Z) :
  offset (mfccEntryAt sqrt vMFCCs aMFCCs offsetFrames)
  = toFixed 100 (inject_Z offsetFrames * 0.01).
Proof.
  unfold mfccEntryAt. destruct (similarityFrom _ _ _ _ _ _ _). reflexivity.
Qed.

(** X12: whatever the frames are, also when there are none, the MFCC method
    reports 101 entries, one for every tenth of a second from -5 to 5: the
    scanned shift of ten frames counts as a tenth of a second. *)
Theorem mfcc_offsets_are_tenths_of_the_range
        (sqrt : Q -> Q) (videoMFCCs audioMFCCs : list (list Q)) :
  length (compareMFCCs sqrt videoMFCCs audioMFCCs) = 101%nat
  /\ Forall2 (fun r k =>
                offset r == (inject_Z (Z.of_nat k) - 50) / 10
                /\ -5 <= offset r /\ offset r <= 5)
             (compareMFCCs sqrt videoMFCCs audioMFCCs) (seq 0 101).
Proof.
  unfold compareMFCCs. split; [now rewrite length_map |].
  unfold scannedFrameOffsets.
  replace (Z.to_nat (2 * maxOffsetFrames / 10) + 1)%nat with 101%nat
    by reflexivity.
  rewrite map_map. apply Forall2_map_self, Forall_forall. intros k Hk.
  rewrite mfccEntryAt_offset.
  assert (forallb
            (fun k =>
               let o := toFixed 100 (inject_Z (- maxOffsetFrames
                                               + Z.of_nat k * 10) * 0.01) in
               Qeq_bool o ((inject_Z (Z.of_nat k) - 50) / 10) && inRange o)
            (seq 0 101) = true) as H by (vm_compute; reflexivity).
  rewrite forallb_forall in H. specialize (H k Hk). cbn zeta in H.
  apply andb_true_iff in H. destruct H as [E Hr].
  apply Qeq_bool_iff in E. apply inRange_spec in Hr. tauto.
Qed.

Lemma basic_offsets_in_range (signal1 signal2 : list Q) :
  Forall (fun r => inRange (offset r) = true)
         (findCorrelation signal1 signal2).
Proof.
  rewrite findCorrelation_entries. apply Forall_map, Forall_forall.
  intros lag Hlag. rewrite entryAt_offset.
  assert (forallb (fun lag => inRange (toFixed 100 (inject_Z lag
                                                    / inject_Z sampleRate)))
                  scannedOffsets = true) as H by (vm_compute; reflexivity).
  rewrite forallb_forall in H. now apply H.
Qed.

Lemma mfcc_offsets_in_range (sqrt : Q -> Q)
      (videoMFCCs audioMFCCs : list (list Q)) :
  Forall (fun r => inRange (offset r) = true)
         (compareMFCCs sqrt videoMFCCs audioMFCCs).
Proof.
  unfold compareMFCCs. apply Forall_map, Forall_forall.
  intros k Hk. rewrite mfccEntryAt_offset.
  assert (forallb (fun k => inRange (toFixed 100 (inject_Z k * 0.01)))
                  scannedFrameOffsets = true) as H by (vm_compute; reflexivity).
  rewrite forallb_forall in H. now apply H.
Qed.

Lemma onset_offsets_in_range (videoOnsets audioOnsets : list Q) :
  Forall (fun r => inRange (offset r) = true)
         (matchOnsets videoOnsets audioOnsets).
Proof.
  eapply Forall_impl; [| apply matchOnsets_in_range].
  intros r Hr. apply Qabs_Qle_condition in Hr. now apply inRange_spec.
Qed.

(** A candidate of the engine: one of the three methods, offset in
    [-5, 5]. *)
Lemma findEnhancedCorrelation_candidates
      (sqrt : Q -> Q) (videoFeatures audioFeatures : option FeatureSet)
      (videoData audioData : list Q) :
  Forall (fun c => (method c = "basic-correlation"%string
                    \/ method c = "mfcc"%string
                    \/ method c = "onset"%string)
                   /\ inRange (offset (base c)) = true)
         (findEnhancedCorrelation sqrt videoFeatures audioFeatures
                                  videoData audioData).
Proof.
  assert (forall m l,
             (m = "basic-correlation"%string \/ m = "mfcc"%string
              \/ m = "onset"%string) ->
             Forall (fun r => inRange (offset r) = true) l ->
             Forall (fun c => (method c = "basic-correlation"%string
                               \/ method c = "mfcc"%string
                               \/ method c = "onset"%string)
                              /\ inRange (offset (base c)) = true)
                    (map (tagged m) l)) as Htag.
  { intros m l Hm Hl. apply Forall_map.
    eapply Forall_impl; [| exact Hl]. intros r Hr. cbn. tauto. }
  pose proof (Htag _ _ (or_introl eq_refl)
                   (basic_offsets_in_range videoData audioData)) as Hbasic.
  pose proof (Htag _ _ (or_intror (or_introl eq_refl))
                   (mfcc_offsets_in_range
                      sqrt (fieldOf videoFeatures mfccs)
                      (fieldOf audioFeatures mfccs))) as Hmfcc.
  pose proof (Htag _ _ (or_intror (or_intror eq_refl))
                   (onset_offsets_in_range
                      (fieldOf videoFeatures onsets)
                      (fieldOf audioFeatures onsets))) as Honset.
  unfold findEnhancedCorrelation.
  destruct (present videoFeatures mfccs && present audioFeatures mfccs);
    destruct (present videoFeatures onsets && present audioFeatures onsets);
    rewrite ?Forall_app; tauto.
Qed.

(** X13: every candidate that [findEnhancedCorrelation] collects has an offset
    in [-5, 5] and one of the three methods that have a weight of their
    own, so the fallback weight 0.1 is never used for them; the 101 entries
    of the basic correlation are always among them. *)
Theorem candidates_are_in_range_and_weighted
        (sqrt : Q -> Q) (videoFeatures audioFeatures : option FeatureSet)
        (videoData audioData : list Q) :
  let candidates :=
    findEnhancedCorrelation sqrt videoFeatures audioFeatures
                            videoData audioData in
  Forall (fun c => -5 <= offset (base c) /\ offset (base c) <= 5
                   /\ (weightOf (method c) = Num 0.5
                       \/ weightOf (method c) = Num 0.3
                       \/ weightOf (method c) = Num 0.2))
         candidates
  /\ firstn 101 candidates
     = map (tagged "basic-correlation") (findCorrelation videoData audioData).
Proof.
  intros candidates. split.
  - eapply Forall_impl;
      [| apply (findEnhancedCorrelation_candidates
                  sqrt videoFeatures audioFeatures videoData audioData)].
    intros c [Hm Hr]. apply inRange_spec in Hr.
    split; [tauto | split; [tauto |]].
    destruct Hm as [-> | [-> | ->]]; [right; right | left | right; left];
      reflexivity.
  - unfold candidates, findEnhancedCorrelation.
    set (basic := map (tagged "basic-correlation")
                      (findCorrelation videoData audioData)).
    assert (length basic = 101%nat) as Hlen
      by (unfold basic; rewrite length_map; apply findCorrelation_length).
    destruct (present videoFeatures mfccs && present audioFeatures mfccs);
      destruct (present videoFeatures onsets && present audioFeatures onsets);
      rewrite <- ?app_assoc, <- Hlen, ?firstn_app, ?Nat.sub_diag, ?firstn_all;
      cbn [firstn]; rewrite ?app_nil_r; reflexivity.
Qed.

Lemma topSuggestions_from_candidates (enhancedResults : list Candidate) (o : Q) :
  In o (topSuggestions enhancedResults) ->
  exists c, In c enhancedResults /\ o = offset (base c).
Proof.
  unfold topSuggestions. intros H. apply in_map_iff in H.
  destruct H as [w [<- Hw]].
  assert (In w (sortedResults enhancedResults)) as Hw'
    by (rewrite <- (firstn_skipn 3); apply in_or_app; now left).
  clear Hw. rename Hw' into Hw.
  apply (Permutation_in _ (sortedResults_perm enhancedResults)) in Hw.
  unfold weightedResults in Hw. apply in_map_iff in Hw.
  destruct Hw as [c [<- Hc]]. exists c. split; [exact Hc | reflexivity].
Qed.

(** X14: on the candidates of the engine the range filter removes none of the
    three best offsets: each of them is among the suggestions shown. *)
Theorem best_offsets_are_suggested
        (sqrt : Q -> Q) (videoData audioData : Analysis FeatureSet) :
  let candidates :=
    findEnhancedCorrelation sqrt (features _ videoData) (features _ audioData)
                            (rawData _ videoData) (rawData _ audioData) in
  Forall (fun o => InA Qeq o (syncSuggestions
                                (suggestFor sqrt videoData audioData)))
         (topSuggestions candidates).
Proof.
  intros candidates.
  assert (syncSuggestions (suggestFor sqrt videoData audioData)
          = uniqueSuggestions candidates) as ->.
  { unfold suggestFor, finishAnalysis. fold candidates.
    destruct (uniqueSuggestions candidates); reflexivity. }
  apply Forall_forall. intros o Ho. apply uniqueSuggestions_InA.
  split.
  - apply topSuggestions_from_candidates in Ho. destruct Ho as [c [Hc ->]].
    pose proof (findEnhancedCorrelation_candidates
                  sqrt (features _ videoData) (features _ audioData)
                  (rawData _ videoData) (rawData _ audioData)) as H.
    rewrite Forall_forall in H. now apply H.
  - apply addZero_InA. left. apply addVariance_InA. left.
    apply InA_alt. exists o. split; [reflexivity | exact Ho].
Qed.


(** ** The playback controller, further *)

Lemma togglePlayback_timeouts (m : PlaybackMode) (p : Player) :
  exists added, timeouts (togglePlayback m p) = timeouts p ++ added
                /\ (length added <= 1)%nat.
Proof.
  destruct p as [v a playing mode progress offset pending].
  unfold togglePlayback, startUploadedAudio. cbn.
  destruct (playing && modeEqb mode m); cbn.
  - exists []. rewrite app_nil_r. split; [reflexivity | simpl; lia].
  - destruct m, v, a; cbn;
      try (exists []; rewrite app_nil_r; split; [reflexivity | simpl; lia]);
      destruct (ltb 0 offset); cbn;
      try (exists []; rewrite app_nil_r; split; [reflexivity | simpl; lia]);
      (eexists; split; [reflexivity | simpl; lia]).
Qed.

Lemma changeOffset_timeouts (newOffset : Q) (p : Player) :
  timeouts (changeOffset newOffset p) = timeouts p.
Proof.
  unfold changeOffset.
  destruct (Qeq_bool newOffset (offsetSeconds p)); [reflexivity |].
  cbn. destruct (isPlaying p); reflexivity.
Qed.

(** X15: nothing the user or the parent does cancels a scheduled start: after
    any sequence of button presses and offset changes the timeouts that
    were pending are still pending, in the same order, followed by at most
    one new timeout per action. *)
Theorem scheduled_starts_are_never_cancelled
        (actions : list Action) (p : Player) :
  exists added,
    timeouts (fold_left act actions p) = timeouts p ++ added
    /\ (length added <= length actions)%nat.
Proof.
  revert p. induction actions as [| a actions IH]; intros p.
  - exists []. cbn. rewrite app_nil_r. split; [reflexivity | lia].
  - cbn [fold_left]. destruct (IH (act p a)) as [later [E Hlater]].
    assert (exists added, timeouts (act p a) = timeouts p ++ added
                          /\ (length added <= 1)%nat) as [added [Ea Hadded]].
    { destruct a as [m | newOffset]; cbn [act].
      - apply togglePlayback_timeouts.
      - exists []. rewrite changeOffset_timeouts, app_nil_r.
        split; [reflexivity | simpl; lia]. }
    exists (added ++ later). rewrite E, Ea, <- app_assoc.
    split; [reflexivity |]. rewrite length_app. cbn [length]. lia.
Qed.

(** X16: a button is a switch: pressing it starts playback in its mode, at
    progress 0 and with both sources rewound, unless that mode is playing,
    and then it stops it and pauses both sources; pressing it twice leaves
    the player playing exactly when it was playing in that mode. *)
Theorem button_toggles_its_mode (m : PlaybackMode) (p : Player) :
  let wasOn := isPlaying p && modeEqb (playbackMode p) m in
  let once := togglePlayback m p in
  let twice := togglePlayback m once in
  isPlaying once = negb wasOn
  /\ playbackProgress once = 0
  /\ (if wasOn
      then isPaused (videoAudioRef once)
           = option_map (fun _ => true) (videoAudioRef p)
           /\ isPaused (uploadedAudioRef once)
              = option_map (fun _ => true) (uploadedAudioRef p)
      else playbackMode once = m
           /\ option_map currentTime (videoAudioRef once)
              = option_map (fun _ => 0) (videoAudioRef p)
           /\ option_map currentTime (uploadedAudioRef once)
              = option_map (fun _ => 0) (uploadedAudioRef p))
  /\ isPlaying twice = wasOn.
Proof.
  destruct p as [v a playing mode progress offset pending].
  unfold togglePlayback, startUploadedAudio. cbn.
  destruct playing, mode, m, v, a; cbn;
    try (repeat split; reflexivity);
    destruct (ltb 0 offset); cbn; repeat split; reflexivity.
Qed.

Lemma min_le_r (a b : Q) : min a b <= b.
Proof.
  unfold JS.min. destruct (Qle_bool a b) eqn:E; [now apply Qle_bool_iff | lra].
Qed.

(** X17: the progress bar never passes 1, and while the session goes on it stays
    below 0.999: as soon as the followed track has ended or is 99.9 %
    through, the session is over, the progress is back at 0 and no further
    frame is requested. *)
Theorem progress_stays_below_one (p : Player) (videoMedia audioMedia : Media) :
  let (after, again) := updateProgress p videoMedia audioMedia in
  playbackProgress after <= 1
  /\ (if again
      then isPlaying after = isPlaying p
           /\ playbackProgress after < 0.999
           /\ isPlaybackEnded p videoMedia audioMedia = false
      else isPlaying after = false /\ playbackProgress after = 0).
Proof.
  unfold updateProgress.
  destruct (followed p videoMedia audioMedia) as [current total].
  set (progress := min (elapsedShare current total) 1).
  destruct (Qle_bool 0.999 progress) eqn:E; cbn [orb].
  - cbn. split; [lra | split; reflexivity].
  - destruct (isPlaybackEnded p videoMedia audioMedia) eqn:Eended.
    + cbn. split; [lra | split; reflexivity].
    + cbn. split; [apply min_le_r |].
      split; [reflexivity | split; [| reflexivity]].
      apply ltb_lt. unfold ltb. now rewrite E.
Qed.

(** X18: in [both] mode with the video as the track that started first, the
    progress and the end of playback are read off the video alone.  With
    any other uploaded audio element, or none, in its place, whatever its
    time and whether it is paused, and whatever duration and end it
    reports, [updateProgress] leaves the same progress, the same
    [isPlaying] and the same request for a next frame; so playback is
    declared over as soon as the video has ended. *)
Theorem only_the_first_track_is_followed
        (p : Player) (otherAudio : option AudioElement)
        (videoMedia audioMedia audioMedia' : Media) :
  playbackMode p = both -> 0 <= offsetSeconds p ->
  updateProgress (withUploadedAudio otherAudio p) videoMedia audioMedia'
  = (withUploadedAudio otherAudio
                       (fst (updateProgress p videoMedia audioMedia)),
     snd (updateProgress p videoMedia audioMedia))
  /\ (if isSome (videoAudioRef p) && ended videoMedia
      then updateProgress (withUploadedAudio otherAudio p)
                          videoMedia audioMedia'
           = (setPlaybackProgress
                0 (setIsPlaying false (withUploadedAudio otherAudio p)),
              false)
      else True).
Proof.
  intros Hmode Hoffset. apply Qle_bool_iff in Hoffset.
  destruct p as [v a playing mode progress offset pending].
  cbn [playbackMode offsetSeconds] in Hmode, Hoffset. subst mode.
  unfold updateProgress, followed, isPlaybackEnded, withUploadedAudio.
  cbn [playbackMode offsetSeconds videoAudioRef uploadedAudioRef isPlaying
       playbackProgress timeouts].
  rewrite Hoffset. split.
  - destruct v as [v |]; cbn [isSome andb];
      match goal with
      | |- context [if ?c then _ else _] => destruct c
      end; reflexivity.
  - destruct v as [v |]; cbn [isSome andb]; [| exact I].
    destruct (ended videoMedia); [| exact I].
    rewrite orb_true_r. reflexivity.
Qed.

Lemma only_the_first_track_is_followed_witness :
  updateProgress (withUploadedAudio (Some (mkAudioElement true 7))
                                    midwayPlayer)
                 (mkMedia (Num 10) false) (mkMedia NaN true)
  = (withUploadedAudio
       (Some (mkAudioElement true 7))
       (fst (updateProgress midwayPlayer (mkMedia (Num 10) false)
                            (mkMedia (Num 4) false))),
     snd (updateProgress midwayPlayer (mkMedia (Num 10) false)
                         (mkMedia (Num 4) false))).
Proof.
  apply (only_the_first_track_is_followed
           midwayPlayer (Some (mkAudioElement true 7))
           (mkMedia (Num 10) false) (mkMedia (Num 4) false)
           (mkMedia NaN true)).
  - reflexivity.
  - vm_compute. discriminate.
Defined.


(** ** Dragging the waveform *)

Lemma Qle_bool_false (a b : Q) : Qle_bool a b = false <-> b < a.
Proof.
  split.
  - intros E. apply Qnot_le_lt. intro H. apply Qle_bool_iff in H. congruence.
  - intros H. destruct (Qle_bool a b) eqn:E; [| reflexivity].
    apply Qle_bool_iff in E. lra.
Qed.

Ltac qbool :=
  repeat match goal with
         | H : Qle_bool _ _ = true |- _ => apply Qle_bool_iff in H
         | H : Qle_bool _ _ = false |- _ => apply Qle_bool_false in H
         end.

(** Rounding leaves a multiple of [1 / scale] alone. *)
Lemma toFixed_fixed (scale m : Z) :
  (0 < scale)%Z ->
  toFixed scale (inject_Z m / inject_Z scale) == inject_Z m / inject_Z scale.
Proof.
  intros Hscale.
  assert (0 < inject_Z scale) as Hs by now apply inject_Z_pos.
  assert (forall k : Z, (0 <= k)%Z ->
            toFixed scale (inject_Z k / inject_Z scale)
            == inject_Z k / inject_Z scale) as Hpos.
  { intros k Hk.
    assert (0 <= inject_Z k / inject_Z scale) as H0.
    { apply Qle_shift_div_l; [exact Hs |]. rewrite Qmult_0_l.
      now apply inject_Z_nonneg. }
    unfold toFixed. rewrite (proj2 (Qle_bool_iff _ _) H0).
    rewrite (Qabs_pos _ H0).
    assert (Qfloor (inject_Z k / inject_Z scale * inject_Z scale + (1 # 2)) = k)
      as ->; [| reflexivity].
    assert (inject_Z k / inject_Z scale * inject_Z scale + (1 # 2)
            == inject_Z k + (1 # 2)) as E by (field; lra).
    rewrite (Qfloor_comp _ _ E).
    assert (k <= Qfloor (inject_Z k + (1 # 2)))%Z as Hlow.
    { rewrite <- (Qfloor_Z k) at 1. apply Qfloor_resp_le. lra. }
    assert (Qfloor (inject_Z k + (1 # 2)) < k + 1)%Z as Hhigh.
    { rewrite Zlt_Qlt, inject_Z_plus.
      eapply Qle_lt_trans; [apply Qfloor_le |]. change (inject_Z 1) with 1. lra. }
    lia. }
  destruct (Z.le_gt_cases 0 m) as [Hm | Hm]; [now apply Hpos |].
  assert (inject_Z m / inject_Z scale == - (inject_Z (- m) / inject_Z scale))
    as E by (rewrite inject_Z_opp; unfold Qdiv; ring).
  rewrite (toFixed_comp _ _ _ E), toFixed_opp, Hpos by lia.
  symmetry. exact E.
Qed.

Lemma Qfloor_half_mono (x y : Q) :
  x <= y -> (Qfloor (x + (1 # 2)) <= Qfloor (y + (1 # 2)))%Z.
Proof. intros H. apply Qfloor_resp_le. lra. Qed.

(** Rounding keeps the order. *)
Lemma toFixed_mono (scale : Z) (x y : Q) :
  (0 < scale)%Z -> x <= y -> toFixed scale x <= toFixed scale y.
Proof.
  intros Hscale Hxy.
  assert (0 < inject_Z scale) as Hs by now apply inject_Z_pos.
  assert (forall a b : Z, (a <= b)%Z ->
            inject_Z a / inject_Z scale <= inject_Z b / inject_Z scale) as Hdiv.
  { intros a b Hab. apply Qmult_le_compat_r.
    - now rewrite <- Zle_Qle.
    - apply Qlt_le_weak. now apply Qinv_lt_0_compat. }
  assert (forall z, 0 <= inject_Z (Qfloor (Qabs z * inject_Z scale + (1 # 2)))
                         / inject_Z scale) as Hnonneg.
  { intros z. apply Qle_shift_div_l; [exact Hs |]. rewrite Qmult_0_l.
    apply inject_Z_nonneg. apply (Qfloor_resp_le 0).
    pose proof (Qabs_nonneg z).
    assert (0 <= Qabs z * inject_Z scale) by (apply Qmult_le_0_compat; lra).
    lra. }
  unfold toFixed.
  destruct (Qle_bool 0 x) eqn:Ex, (Qle_bool 0 y) eqn:Ey; qbool.
  - apply Hdiv, Qfloor_half_mono.
    rewrite !Qabs_pos by lra. apply Qmult_le_compat_r; lra.
  - lra.
  - pose proof (Hnonneg x). pose proof (Hnonneg y). lra.
  - apply Qopp_le_compat, Hdiv, Qfloor_half_mono.
    rewrite !Qabs_neg by lra. apply Qmult_le_compat_r; lra.
Qed.

Lemma max_mono (a x y : Q) : x <= y -> max a x <= max a y.
Proof.
  intros H. unfold JS.max.
  destruct (Qle_bool a x) eqn:E1, (Qle_bool a y) eqn:E2; qbool; lra.
Qed.

Lemma min_mono (a x y : Q) : x <= y -> min a x <= min a y.
Proof.
  intros H. unfold JS.min.
  destruct (Qle_bool a x) eqn:E1, (Qle_bool a y) eqn:E2; qbool; lra.
Qed.

(** The offset that a move reports over a container of positive width. *)
Lemma handleMouseMove_value (width clientX dragStartX dragStartOffset : Q) :
  0 < width ->
  handleMouseMove true (Some width) clientX dragStartX dragStartOffset
  = Some (Num (toFixed 10
                 (max (-5)
                      (min 5 (dragStartOffset
                              + (clientX - dragStartX) / width * 10))))).
Proof.
  intros Hwidth. unfold handleMouseMove. cbn [negb]. unfold numDiv.
  destruct (Qeq_bool width 0) eqn:E; [| reflexivity].
  apply Qeq_bool_iff in E. lra.
Qed.

(** X19: pressing the button and moving without leaving the spot reports the
    offset there was, when that is a multiple of 0.1 in [-5, 5]. *)
Theorem drag_without_movement_keeps_offset
        (width clientX offsetSeconds : Q) (tenths : Z) (drag : DragState) :
  0 < width -> offsetSeconds == inject_Z tenths / inject_Z 10 ->
  -5 <= offsetSeconds -> offsetSeconds <= 5 ->
  exists reported,
    moveDuring (handleMouseDown (Some width) clientX offsetSeconds drag)
               (Some width) clientX
    = Some (Num reported)
    /\ reported == offsetSeconds.
Proof.
  intros Hwidth Htenths Hlow Hhigh. unfold moveDuring, handleMouseDown.
  cbn [isDragging dragStartX dragStartOffset].
  rewrite handleMouseMove_value by exact Hwidth.
  eexists. split; [reflexivity |].
  assert (max (-5) (min 5 (offsetSeconds + (clientX - clientX) / width * 10))
          == inject_Z tenths / inject_Z 10) as E.
  { assert (offsetSeconds + (clientX - clientX) / width * 10 == offsetSeconds)
      as E0 by (field; lra).
    unfold JS.max, JS.min.
    destruct (Qle_bool 5 _) eqn:E1;
      destruct (Qle_bool (-5) _) eqn:E2; qbool; lra. }
  rewrite (toFixed_comp _ _ _ E), toFixed_fixed by lia.
  symmetry. exact Htenths.
Qed.

Lemma drag_without_movement_keeps_offset_witness :
  exists reported,
    moveDuring (handleMouseDown (Some 600) 250 1.5 (mkDragState false 0 0))
               (Some 600) 250
    = Some (Num reported)
    /\ reported == 1.5.
Proof.
  apply (drag_without_movement_keeps_offset 600 250 1.5 15).
  - reflexivity.
  - reflexivity.
  - vm_compute. discriminate.
  - vm_compute. discriminate.
Defined.

(** X20: dragging further to the right never reports a smaller offset. *)
Theorem dragging_right_never_lowers_offset
        (width clientX clientX' dragStartX dragStartOffset : Q) :
  0 < width -> clientX <= clientX' ->
  exists reported reported',
    handleMouseMove true (Some width) clientX dragStartX dragStartOffset
    = Some (Num reported)
    /\ handleMouseMove true (Some width) clientX' dragStartX dragStartOffset
       = Some (Num reported')
    /\ reported <= reported'.
Proof.
  intros Hwidth Hright. rewrite !handleMouseMove_value by exact Hwidth.
  eexists. eexists. split; [reflexivity | split; [reflexivity |]].
  apply toFixed_mono; [lia |]. apply max_mono, min_mono.
  assert ((clientX - dragStartX) / width <= (clientX' - dragStartX) / width).
  { apply Qmult_le_compat_r; [lra |].
    apply Qlt_le_weak. now apply Qinv_lt_0_compat. }
  lra.
Qed.

Lemma dragging_right_never_lowers_offset_witness :
  exists reported reported',
    handleMouseMove true (Some 600) 250 100 0 = Some (Num reported)
    /\ handleMouseMove true (Some 600) 400 100 0 = Some (Num reported')
    /\ reported <= reported'.
Proof.
  apply (dragging_right_never_lowers_offset 600 250 400 100 0).
  - reflexivity.
  - vm_compute. discriminate.
Defined.

(** X21: whatever the drag, the audio waveform is drawn shifted by at most half
    the width of the container. *)
Theorem dragged_waveform_stays_within_half_width
        (drag : DragState) (width clientX reported : Q) :
  0 <= width ->
  moveDuring drag (Some width) clientX = Some (Num reported) ->
  Qabs (getAudioOffsetPixels (Some width) reported) <= width / 2.
Proof.
  intros Hwidth Hmove. unfold moveDuring in Hmove.
  apply handleMouseMove_clamps in Hmove.
  destruct Hmove as [[Hnan _] | [q [E [Hlow [Hhigh _]]]]]; [discriminate |].
  injection E as ->. unfold getAudioOffsetPixels.
  assert (q / 10 * width == q * (1 # 10) * width) as E1 by field.
  assert (width / 2 == width * (1 # 2)) as E2 by field.
  rewrite E1, E2.
  assert (0 <= (q * (1 # 10) + (1 # 2)) * width) as H1
    by (apply Qmult_le_0_compat; lra).
  assert (0 <= ((1 # 2) - q * (1 # 10)) * width) as H2
    by (apply Qmult_le_0_compat; lra).
  apply Qabs_Qle_condition. split; nra.
Qed.

Lemma dragged_waveform_stays_within_half_width_witness :
  Qabs (getAudioOffsetPixels (Some 600) 5.0) <= 600 / 2.
Proof.
  apply (dragged_waveform_stays_within_half_width
           (mkDragState true 100 0) 600 700 5.0).
  - vm_compute. discriminate.
  - vm_compute. reflexivity.
Defined.

(** ** Beat detection by amplitude *)

Lemma lowPassFrom_length (alpha previous : Q) (signal : list Q) :
  length (lowPassFrom alpha previous signal) = length signal.
Proof.
  revert previous. induction signal as [| x rest IH]; intros previous.
  - reflexivity.
  - cbn [lowPassFrom length]. now rewrite IH.
Qed.

Lemma lowPassFilter_length (signal : list Q) (sampleRate cutoffFreq : Q) :
  length (lowPassFilter signal sampleRate cutoffFreq) = length signal.
Proof.
  unfold lowPassFilter. destruct signal as [| first rest]; [reflexivity |].
  cbn [length]. now rewrite lowPassFrom_length.
Qed.

Lemma lowPassFrom_bounds (alpha lo hi : Q) (signal : list Q) :
  0 <= alpha -> alpha <= 1 ->
  Forall (fun x => lo <= x /\ x <= hi) signal ->
  forall previous, lo <= previous -> previous <= hi ->
  Forall (fun y => lo <= y /\ y <= hi) (lowPassFrom alpha previous signal).
Proof.
  intros H0 H1. induction 1 as [| x rest [Hlo Hhi] _ IH]; intros previous Hp Hp'.
  - constructor.
  - cbn [lowPassFrom].
    assert (lo <= previous + alpha * (x - previous)) by nra.
    assert (previous + alpha * (x - previous) <= hi) by nra.
    constructor; [now split | now apply IH].
Qed.

Lemma PI_positive : 0 < PI.
Proof. reflexivity. Qed.

Lemma alpha_between_0_and_1 (sampleRate cutoffFreq : Q) :
  0 < sampleRate -> 0 < cutoffFreq ->
  let rc := 1 / (cutoffFreq * 2 * PI) in
  let dt := 1 / sampleRate in
  0 < dt / (rc + dt) /\ dt / (rc + dt) < 1.
Proof.
  intros Hrate Hcut rc dt.
  assert (Hrc : 0 < rc).
  { unfold rc. apply Qlt_shift_div_l.
    - pose proof PI_positive. nra.
    - lra. }
  assert (Hdt : 0 < dt).
  { unfold dt. apply Qlt_shift_div_l; [exact Hrate | lra]. }
  split.
  - apply Qlt_shift_div_l; lra.
  - apply Qlt_shift_div_r; lra.
Qed.

(** X22: the low-pass filter keeps the number of samples and never
    overshoots: bounds that hold for every sample of the signal hold for
    every sample of the filtered signal. *)
Theorem low_pass_filter_does_not_overshoot
        (signal : list Q) (sampleRate cutoffFreq lo hi : Q) :
  0 < sampleRate -> 0 < cutoffFreq ->
  Forall (fun x => lo <= x /\ x <= hi) signal ->
  length (lowPassFilter signal sampleRate cutoffFreq) = length signal
  /\ Forall (fun y => lo <= y /\ y <= hi)
            (lowPassFilter signal sampleRate cutoffFreq).
Proof.
  intros Hrate Hcut Hsignal. split; [apply lowPassFilter_length |].
  destruct (alpha_between_0_and_1 sampleRate cutoffFreq Hrate Hcut)
    as [Hpos Hone].
  unfold lowPassFilter. destruct Hsignal as [| first rest [Hlo Hhi] Hrest].
  - constructor.
  - constructor; [now split |].
    apply lowPassFrom_bounds; try assumption; lra.
Qed.

Lemma low_pass_filter_does_not_overshoot_witness :
  Forall (fun y => -1 <= y /\ y <= 1) (lowPassFilter [1; -1; 0.5] 44100 200).
Proof.
  apply (low_pass_filter_does_not_overshoot [1; -1; 0.5] 44100 200 (-1) 1).
  - reflexivity.
  - reflexivity.
  - repeat constructor; vm_compute; discriminate.
Defined.

Lemma fold_seq_invariant_from {S : Type} (step : S -> nat -> S)
      (Inv : nat -> S -> Prop) (first limit : nat) :
  (forall n s, (first <= n < limit)%nat ->
               Inv n s -> Inv (Datatypes.S n) (step s n)) ->
  forall len start s,
    (first <= start)%nat -> (start + len <= limit)%nat -> Inv start s ->
    Inv (start + len)%nat (fold_left step (seq start len) s).
Proof.
  intros Hstep. induction len as [| len IH]; intros start s Hfirst Hlimit Hinv.
  - now rewrite Nat.add_0_r.
  - cbn [seq fold_left]. rewrite <- Nat.add_succ_comm.
    apply IH; [lia | lia |]. apply Hstep; [lia | exact Hinv].
Qed.

Lemma beatStep_invariant (filtered : list Q) (sampleRate : Q) (i : nat)
      (state : list Q * Z) :
  0 < sampleRate -> (1 <= i)%nat ->
  beatsSoFar sampleRate i state ->
  beatsSoFar sampleRate (S i)
             (beatStep filtered sampleRate
                       (Qfloor (minBeatInterval * sampleRate)) state i).
Proof.
  intros Hrate Hi (Hsorted & Hbeats & Hlast). destruct state as [beats last].
  unfold beatsSoFar. cbn [fst snd] in *. unfold beatStep.
  destruct (_ && _ && _ && _) eqn:Hpeak; cbn [fst snd].
  - apply andb_prop in Hpeak. destruct Hpeak as [_ Hfar].
    apply Z.ltb_lt in Hfar.
    assert (Hnonzero : ~ sampleRate == 0) by lra.
    assert (Hhere : inject_Z (Z.of_nat i) / sampleRate * sampleRate
                    == inject_Z (Z.of_nat i)) by (field; exact Hnonzero).
    assert (Hgap : inject_Z last + minBeatInterval * sampleRate
                   < inject_Z (Z.of_nat i)).
    { pose proof (Qlt_floor (minBeatInterval * sampleRate)) as Hfloor.
      assert (Hz : (Qfloor (minBeatInterval * sampleRate) + 1
                    <= Z.of_nat i - last)%Z) by lia.
      rewrite Zle_Qle in Hz. unfold Zminus in Hz.
      rewrite (inject_Z_plus (Z.of_nat i)), inject_Z_opp in Hz.
      rewrite inject_Z_plus in Hfloor. rewrite inject_Z_plus in Hz.
      change (inject_Z 1) with 1 in *. lra. }
    unfold minBeatInterval in Hgap.
    assert (Hpositive : 0 < inject_Z (Z.of_nat i)).
    { change 0 with (inject_Z 0). rewrite <- Zlt_Qlt. lia. }
    split; [| split].
    + apply StronglySorted_snoc; [exact Hsorted |].
      eapply Forall_impl; [| exact Hbeats]. cbn beta. intros t [_ Ht]. nra.
    + apply Forall_app. split.
      * eapply Forall_impl; [| exact Hbeats]. cbn beta. intros t [Ht Ht'].
        split; [exact Ht |].
        assert (inject_Z last <= inject_Z (Z.of_nat i))
          by (rewrite <- Zle_Qle; lia).
        lra.
      * repeat constructor; [nra | lra].
    + lia.
  - split; [exact Hsorted | split; [exact Hbeats | lia]].
Qed.

(** X23: without onsets among the features, the beats that [detectBeats]
    finds are timestamps inside the track that lie more than a quarter of
    a second apart, in increasing order. *)
Theorem beats_are_a_quarter_second_apart
        (audioData : list Q) (sampleRate : Q) (features : option FeatureSet) :
  0 < sampleRate -> present features onsets = false ->
  let beats := detectBeats audioData sampleRate features in
  StronglySorted (fun a b => a + 0.25 < b) beats
  /\ Forall (fun t => 0 < t
                      /\ t * sampleRate
                         < inject_Z (Z.of_nat (length audioData - 1)))
            beats.
Proof.
  intros Hrate Hno beats. unfold beats, detectBeats. rewrite Hno.
  set (m := Qfloor (minBeatInterval * sampleRate)).
  set (filtered := lowPassFilter audioData sampleRate 200).
  assert (Hm : (0 <= m)%Z).
  { unfold m. change 0%Z with (Qfloor 0). apply Qfloor_resp_le.
    unfold minBeatInterval. nra. }
  destruct (Nat.le_gt_cases (length filtered) 2) as [Hshort | Hlong].
  { replace (length filtered - 2)%nat with 0%nat by lia.
    cbn [seq fold_left fst]. split; constructor. }
  destruct (fold_seq_invariant_from
              (beatStep filtered sampleRate m) (beatsSoFar sampleRate)
              1 (1 + (length filtered - 2))
              (fun n state Hn =>
                 beatStep_invariant filtered sampleRate n state Hrate
                                    (proj1 Hn))
              (length filtered - 2)%nat 1%nat ([], (- m)%Z))
    as (Hsorted & Hbeats & Hlast).
  - lia.
  - lia.
  - unfold beatsSoFar. cbn [fst snd].
    repeat split; [constructor | constructor | lia].
  - split; [exact Hsorted |].
    eapply Forall_impl; [| exact Hbeats]. cbn beta. intros t [Ht Ht'].
    split; [exact Ht |].
    eapply Qle_lt_trans; [exact Ht' |]. rewrite <- Zlt_Qlt.
    assert (Hlen : length filtered = length audioData)
      by apply lowPassFilter_length.
    lia.
Qed.

Lemma beats_are_a_quarter_second_apart_witness :
  StronglySorted (fun a b => a + 0.25 < b)
                 (detectBeats [0; 9; 0; 0; 0; 9; 0] 8 None).
Proof.
  apply (beats_are_a_quarter_second_apart [0; 9; 0; 0; 0; 9; 0] 8 None).
  - reflexivity.
  - reflexivity.
Defined.

(** ** Resizing a text overlay *)



(** ** Text overlays *)

Lemma spread_keeps_id (el : TextElement.t) (updates : TextUpdates) :
  newId updates = None ->
  TextElement.id (spread el updates) = TextElement.id el.
Proof. intros Hid. unfold spread. cbn. now rewrite Hid. Qed.

(** X25: removing the overlay that was just added gives the list back,
    when no other overlay carries the identifier drawn for it. *)
Theorem removing_the_added_overlay_restores_the_list
        (randomId : string) (textElements : list TextElement.t) :
  Forall (fun el => TextElement.id el <> randomId) textElements ->
  removeTextElement randomId (addTextElement randomId textElements)
  = textElements.
Proof.
  intros Hfresh. unfold removeTextElement, addTextElement.
  rewrite filter_app. cbn [filter TextElement.id].
  rewrite String.eqb_refl. cbn [negb]. rewrite app_nil_r.
  induction Hfresh as [| el rest Hel _ IH]; [reflexivity |].
  cbn [filter]. apply String.eqb_neq in Hel. rewrite Hel. cbn [negb].
  now rewrite IH.
Qed.

Lemma removing_the_added_overlay_restores_the_list_witness :
  removeTextElement
    "b" (addTextElement "b" [TextElement.mk "a" "title" "#000000" "Inter"
                                            36 (10, 20)])
  = [TextElement.mk "a" "title" "#000000" "Inter" 36 (10, 20)].
Proof.
  apply (removing_the_added_overlay_restores_the_list
           "b" [TextElement.mk "a" "title" "#000000" "Inter" 36 (10, 20)]).
  repeat constructor. cbn. discriminate.
Defined.

(** X26: updates that leave the identifier alone keep the identifiers of
    the list in their order, and updates of two different overlays can be
    made in either order. *)
Theorem updates_of_different_overlays_commute
        (first second : string) (updates updates' : TextUpdates)
        (textElements : list TextElement.t) :
  newId updates = None -> newId updates' = None -> first <> second ->
  map TextElement.id (updateTextElement first updates textElements)
  = map TextElement.id textElements
  /\ updateTextElement first updates
                       (updateTextElement second updates' textElements)
     = updateTextElement second updates'
                         (updateTextElement first updates textElements).
Proof.
  intros Hid Hid' Hdiff. unfold updateTextElement. split.
  - rewrite map_map. apply map_ext. intros el.
    destruct (String.eqb (TextElement.id el) first);
      [now apply spread_keeps_id | reflexivity].
  - rewrite !map_map. apply map_ext. intros el.
    destruct (String.eqb (TextElement.id el) first) eqn:Hfirst;
      destruct (String.eqb (TextElement.id el) second) eqn:Hsecond.
    + apply String.eqb_eq in Hfirst, Hsecond. congruence.
    + now rewrite (spread_keeps_id el updates Hid), ?Hfirst, ?Hsecond.
    + now rewrite (spread_keeps_id el updates' Hid'), ?Hfirst, ?Hsecond.
    + now rewrite ?Hfirst, ?Hsecond.
Qed.

Lemma updates_of_different_overlays_commute_witness :
  let overlays :=
    [TextElement.mk "a" "title" "#000000" "Inter" 36 (10, 20);
     TextElement.mk "b" "credits" "#ffffff" "Inter" 24 (50, 50)] in
  let resize := mkTextUpdates None None None None (Some 48) None in
  let move := mkTextUpdates None None None None None (Some (0, 0)) in
  updateTextElement "a" resize (updateTextElement "b" move overlays)
  = updateTextElement "b" move (updateTextElement "a" resize overlays).
Proof.
  apply (updates_of_different_overlays_commute
           "a" "b" (mkTextUpdates None None None None (Some 48) None)
           (mkTextUpdates None None None None None (Some (0, 0)))
           [TextElement.mk "a" "title" "#000000" "Inter" 36 (10, 20);
            TextElement.mk "b" "credits" "#ffffff" "Inter" 24 (50, 50)]).
  - reflexivity.
  - reflexivity.
  - discriminate.
Defined.

(** ** Preview box and export history *)

(** X27: the preview box fits in its container and has the chosen aspect
    ratio; it leaves a margin of 40 pixels in the direction that limits
    it, and its sides are not negative when the container measures at
    least 40 pixels each way. *)
Theorem preview_fits_and_keeps_aspect
        (containerWidth containerHeight width height : Q) :
  0 < width -> 0 < height ->
  let (previewWidth, previewHeight) :=
    getPreviewDimensions (Some (containerWidth, containerHeight))
                         width height in
  previewWidth <= containerWidth /\ previewHeight <= containerHeight
  /\ previewWidth * height == previewHeight * width
  /\ (previewWidth == containerWidth - 40
      \/ previewHeight == containerHeight - 40)
  /\ (40 <= containerWidth -> 40 <= containerHeight ->
      0 <= previewWidth /\ 0 <= previewHeight).
Proof.
  intros Hwidth Hheight. cbn [getPreviewDimensions].
  set (aspectRatio := width / height).
  assert (Hratio : aspectRatio * height == width).
  { unfold aspectRatio. field. lra. }
  assert (Hpositive : 0 < aspectRatio).
  { unfold aspectRatio. apply Qlt_shift_div_l; lra. }
  assert (Hnonzero : ~ aspectRatio == 0) by lra.
  destruct (Qle_bool (containerWidth / aspectRatio) containerHeight) eqn:Hfit.
  - apply Qle_bool_iff in Hfit.
    assert (Hw : containerWidth / aspectRatio * aspectRatio == containerWidth)
      by (field; exact Hnonzero).
    assert (Hh : (containerWidth - 40) / aspectRatio * aspectRatio
                 == containerWidth - 40) by (field; exact Hnonzero).
    set (h := (containerWidth - 40) / aspectRatio) in *.
    set (w := containerWidth / aspectRatio) in *.
    assert (Hlower : h <= w) by nra.
    repeat split; try lra; try nra.
  - apply Qle_bool_false in Hfit.
    assert (Hw : containerWidth / aspectRatio * aspectRatio == containerWidth)
      by (field; exact Hnonzero).
    set (w := containerWidth / aspectRatio) in *.
    repeat split; try lra; try nra.
Qed.

Lemma preview_fits_and_keeps_aspect_witness :
  let (previewWidth, previewHeight) :=
    getPreviewDimensions (Some (1000, 500)) 16 9 in
  previewWidth <= 1000 /\ previewHeight <= 500.
Proof.
  pose proof (preview_fits_and_keeps_aspect 1000 500 16 9
                                            eq_refl eq_refl) as H.
  destruct (getPreviewDimensions (Some (1000, 500)) 16 9)
    as [previewWidth previewHeight].
  destruct H as (Hw & Hh & _). split; [exact Hw | exact Hh].
Defined.

Lemma slice_first_nine {A : Type} (l : list A) : slice l 0 9 = firstn 9 l.
Proof.
  unfold slice. cbn [Z.ltb Z.compare]. rewrite (Z.min_l 0) by lia.
  rewrite Z.sub_0_r. cbn [Z.to_nat skipn].
  destruct (Z.min_spec 9 (Z.of_nat (length l))) as [[Hlt ->] | [Hge ->]].
  - reflexivity.
  - rewrite Nat2Z.id. rewrite firstn_all.
    symmetry. apply firstn_all2. lia.
Qed.

(** X28: after any exports the history holds the ten most recent
    records, the newest first: the records that were added, in reverse
    order, followed by those there were before, cut off after ten. *)
Theorem history_keeps_the_ten_most_recent
        {ExportRecord : Type} (added prev : list ExportRecord) :
  added <> [] ->
  fold_left (fun history newRecord => addExportRecord newRecord history)
            added prev
  = firstn 10 (rev added ++ prev).
Proof.
  intros Hadded. revert prev.
  induction added as [| newRecord rest IH]; intros prev; [contradiction |].
  destruct rest as [| next rest'].
  - cbn [fold_left rev app]. unfold addExportRecord.
    rewrite slice_first_nine. reflexivity.
  - change (fold_left _ (newRecord :: next :: rest') prev)
      with (fold_left
              (fun history newRecord => addExportRecord newRecord history)
              (next :: rest') (addExportRecord newRecord prev)).
    rewrite IH by discriminate.
    change (rev (newRecord :: next :: rest'))
      with (rev (next :: rest') ++ [newRecord]).
    assert (Hnewer : (1 <= length (rev (next :: rest')))%nat).
    { rewrite length_rev. cbn [length]. lia. }
    revert Hnewer. generalize (rev (next :: rest')). intros newer Hnewer.
    rewrite <- app_assoc. cbn [app].
    unfold addExportRecord. rewrite slice_first_nine.
    rewrite !firstn_app. f_equal.
    destruct (10 - length newer)%nat as [| room] eqn:Hroom; [reflexivity |].
    rewrite !firstn_cons. apply f_equal.
    rewrite firstn_firstn. apply (f_equal (fun n => firstn n prev)). lia.
Qed.

Lemma history_keeps_the_ten_most_recent_witness :
  fold_left (fun history newRecord => addExportRecord newRecord history)
            [11; 12]%nat (seq 1 10)
  = [12; 11; 1; 2; 3; 4; 5; 6; 7; 8]%nat.
Proof.
  apply (history_keeps_the_ten_most_recent [11; 12]%nat (seq 1 10)).
  discriminate.
Defined.

(** ** Times as text *)

Lemma Qfloor_unique (x : Q) (z : Z) :
  inject_Z z <= x -> x < inject_Z (z + 1) -> Qfloor x = z.
Proof.
  intros Hlow Hhigh.
  pose proof (Qfloor_le x) as Hfloor. pose proof (Qlt_floor x) as Hnext.
  assert (inject_Z (Qfloor x) < inject_Z (z + 1)) as Hup by lra.
  assert (inject_Z z < inject_Z (Qfloor x + 1)) as Hdown by lra.
  rewrite <- Zlt_Qlt in Hup, Hdown. lia.
Qed.

Lemma length_append (s1 s2 : string) :
  String.length (s1 ++ s2) = (String.length s1 + String.length s2)%nat.
Proof.
  induction s1 as [| c s1 IH]; [reflexivity |].
  cbn [append String.length]. now rewrite IH.
Qed.

Lemma two_digits (z : Z) :
  (0 <= z < 100)%Z -> String.length (padStart 2 (toString z)) = 2%nat.
Proof.
  intros Hz.
  assert (Hall : forallb (fun n => String.length
                                     (padStart 2 (toString (Z.of_nat n)))
                                   =? 2)%nat
                         (seq 0 100) = true) by (vm_compute; reflexivity).
  rewrite forallb_forall in Hall.
  specialize (Hall (Z.to_nat z)). rewrite Z2Nat.id in Hall by lia.
  apply Nat.eqb_eq, Hall, in_seq. lia.
Qed.

(** X29: for a time from 0 to [Number.MAX_SAFE_INTEGER] the text is the
    number of whole minutes, a colon and the number of remaining whole
    seconds, each padded to two digits: the seconds are below 60, and with
    the minutes they make up the whole seconds of the time.  Below 100
    minutes the text has five characters. *)
Theorem formatted_time_splits_whole_seconds (seconds : Q) :
  0 <= seconds -> seconds <= maxSafeInteger ->
  exists minutes remainingSeconds : Z,
    formatTime (Num seconds)
    = (padStart 2 (toString minutes) ++ ":"
       ++ padStart 2 (toString remainingSeconds))%string
    /\ (0 <= minutes)%Z /\ inject_Z minutes <= maxSafeInteger
    /\ (0 <= remainingSeconds < 60)%Z
    /\ (60 * minutes + remainingSeconds = Qfloor seconds)%Z
    /\ (seconds < 6000 ->
        String.length (formatTime (Num seconds)) = 5%nat).
Proof.
  intros Hseconds Hsafe. cbn [formatTime].
  assert (Hsign : ltb seconds 0 = false).
  { unfold ltb. apply negb_false_iff, Qle_bool_iff, Hseconds. }
  rewrite Hsign.
  set (minutes := Qfloor (seconds / 60)).
  assert (Hsixty : seconds / 60 * 60 == seconds) by (field; discriminate).
  pose proof (Qfloor_le (seconds / 60)) as Hlow.
  pose proof (Qlt_floor (seconds / 60)) as Hhigh.
  fold minutes in Hlow, Hhigh. rewrite inject_Z_plus in Hhigh.
  change (inject_Z 1) with 1 in Hhigh.
  assert (Hminutes : (0 <= minutes)%Z).
  { unfold minutes. change 0%Z with (Qfloor 0). apply Qfloor_resp_le. lra. }
  assert (Htrunc : trunc (seconds / 60) = minutes).
  { unfold trunc.
    assert (Hpos : Qle_bool 0 (seconds / 60) = true)
      by (apply Qle_bool_iff; lra).
    now rewrite Hpos. }
  unfold remainder. rewrite Htrunc.
  set (remainingSeconds := Qfloor (seconds - 60 * inject_Z minutes)).
  assert (Hwhole : (remainingSeconds = Qfloor seconds - 60 * minutes)%Z).
  { unfold remainingSeconds. apply Qfloor_unique.
    - pose proof (Qfloor_le seconds).
      unfold Zminus. rewrite inject_Z_plus, inject_Z_opp, inject_Z_mult.
      change (inject_Z 60) with 60. lra.
    - pose proof (Qlt_floor seconds) as Hnext.
      rewrite inject_Z_plus in Hnext. unfold Zminus.
      rewrite !inject_Z_plus, inject_Z_opp, inject_Z_mult.
      change (inject_Z 60) with 60. change (inject_Z 1) with 1 in *. lra. }
  assert (Hrange : (0 <= remainingSeconds < 60)%Z).
  { rewrite Hwhole.
    assert (Hfloor : (60 * minutes <= Qfloor seconds)%Z).
    { rewrite <- (Qfloor_Z (60 * minutes)). apply Qfloor_resp_le.
      rewrite inject_Z_mult. change (inject_Z 60) with 60. lra. }
    assert (Hbelow : (Qfloor seconds < 60 * minutes + 60)%Z).
    { rewrite Zlt_Qlt. eapply Qle_lt_trans; [apply Qfloor_le |].
      rewrite inject_Z_plus, inject_Z_mult. change (inject_Z 60) with 60.
      lra. }
    lia. }
  exists minutes, remainingSeconds.
  split; [reflexivity |]. split; [exact Hminutes |].
  split; [lra |].
  split; [exact Hrange |]. split; [lia |].
  intros Hshort.
  assert (Hhundred : (minutes < 100)%Z).
  { rewrite Zlt_Qlt. change (inject_Z 100) with 100. lra. }
  rewrite !length_append.
  rewrite (two_digits minutes), (two_digits remainingSeconds) by lia.
  reflexivity.
Qed.

Lemma formatted_time_splits_whole_seconds_witness :
  exists minutes remainingSeconds : Z,
    formatTime (Num 125.7)
    = (padStart 2 (toString minutes) ++ ":"
       ++ padStart 2 (toString remainingSeconds))%string
    /\ (0 <= minutes)%Z /\ inject_Z minutes <= maxSafeInteger
    /\ (0 <= remainingSeconds < 60)%Z
    /\ (60 * minutes + remainingSeconds = Qfloor 125.7)%Z
    /\ (125.7 < 6000 -> String.length (formatTime (Num 125.7)) = 5%nat).
Proof.
  apply (formatted_time_splits_whole_seconds 125.7).
  - vm_compute. discriminate.
  - vm_compute. discriminate.
Defined.
